(** * Article clustering pipeline ([modal-clustering/cluster_api.py])

    A shallow embedding of [cluster_articles] and [cluster_endpoint] and the
    properties of their result records.

    Conventions of the embedding.
    - A Python [str] is a sequence of Unicode code points: [str := list N].
    - A Python [int] is a [Z]; a Python [float] is a binary64 [PrimFloat.float].
    - A raised [Exception] is a value of [exn]; a computation that may raise
      lives in the error monad [M A := exn + A].
    - A dict read with [.get(key, default)] is a record of optional fields.
    - The dict [topic_to_articles] is iterated in insertion order, so it is an
      association list.
    - The third-party classes (SentenceTransformer, CountVectorizer, BERTopic)
      are not part of the repository: they are the fields of [library], over
      which every statement is quantified.  The library is stochastic; one
      value of [library] stands for the answers it gives during one call. *)

From Stdlib Require Import ZArith NArith Lia Ascii String DecimalString Floats.
From Stdlib Require DecimalPos DecimalZ.
From stdpp Require Import base list sorting.

Local Open Scope Z_scope.

(** ** Python strings *)

Definition str : Type := list N.

(** An ASCII literal as a [str]. *)
Definition s (x : string) : str :=
  List.map N_of_ascii (list_ascii_of_string x).

(** [str.isspace] on one code point (CPython's [_PyUnicode_IsWhitespace]). *)
Definition is_space (c : N) : bool :=
  ((9 <=? c) && (c <=? 13) || (28 <=? c) && (c <=? 32)
   || (c =? 133) || (c =? 160) || (c =? 5760)
   || (8192 <=? c) && (c <=? 8202)
   || (c =? 8232) || (c =? 8233) || (c =? 8239) || (c =? 8287)
   || (c =? 12288))%N.

Fixpoint lstrip (x : str) : str :=
  match x with
  | c :: x' => if is_space c then lstrip x' else x
  | [] => []
  end.

Definition rstrip (x : str) : str := rev (lstrip (rev x)).

(** [x.strip()] *)
Definition strip (x : str) : str := rstrip (lstrip x).

(** [str(n)] / [f"{n}"] for an int. *)
Definition str_of_int (n : Z) : str := s (NilZero.string_of_int (Z.to_int n)).

(** [len(l)] *)
Definition len {A} (l : list A) : Z := Z.of_nat (length l).

(** ** Exceptions and the error monad *)

(** An instance of [Exception]: its class name and [str(e)]. *)
Inductive exn : Type := PyExn (cls : str) (msg : str).

Definition str_of_exn (e : exn) : str := let 'PyExn _ m := e in m.

Definition M (A : Type) : Type := (exn + A)%type.

Definition ret {A} (a : A) : M A := inr a.
Definition raise {A} (e : exn) : M A := inl e.
Definition bind {A B} (m : M A) (k : A → M B) : M B :=
  match m with inl e => inl e | inr a => k a end.

Notation "'let*' x ':=' m 'in' k" := (bind m (fun x => k))
  (at level 10, x name, m at level 100, k at level 200).

(** [try: m except Exception as e: h e] *)
Definition try_except {A} (m : M A) (h : exn → M A) : M A :=
  match m with inl e => h e | inr a => inr a end.

(** [l[i]] on a Python list, for [i >= 0]. *)
Definition index {A} (l : list A) (i : nat) : M A :=
  match l !! i with
  | Some a => ret a
  | None => raise (PyExn (s "IndexError") (s "list index out of range"))
  end.

(** [a[i]] on a one-dimensional numpy array, for [i >= 0]. *)
Definition np_index {A} (a : list A) (i : nat) : M A :=
  match a !! i with
  | Some x => ret x
  | None =>
      raise (PyExn (s "IndexError")
               (s "index " ++ str_of_int (Z.of_nat i)
                ++ s " is out of bounds for axis 0 with size "
                ++ str_of_int (len a)))
  end.

(** ** Records of the interface *)

(** One element of [articles]: a dict read only through [.get]. *)
Record article : Type := Article {
  a_id : option str;
  a_title : option str;
  a_excerpt : option str
}.

(** [d.get(key, default)] on a field that may be absent. *)
Definition get (field : option str) (default : str) : str :=
  match field with Some v => v | None => default end.

(** One element of [clusters]. *)
Record cluster : Type := Cluster {
  c_id : str;
  c_articleIds : list str;
  c_keywords : list str;
  c_topicName : str;
  c_size : Z
}.

(** The dict returned to the caller; an absent key is [None]. *)
Record response : Type := Response {
  r_error : option str;
  r_clusters : list cluster;
  r_unclusteredIds : option (list str);
  r_totalArticles : option Z;
  r_clusteredArticles : option Z;
  r_message : option str
}.

(** The POST body: the key ["articles"] may be absent. *)
Record request : Type := Request { d_articles : option (list article) }.


(** ** The third-party library *)

(** The arguments given to [CountVectorizer(...)]. *)
Record vectorizer_config : Type := CountVectorizer {
  stop_words : list str;
  ngram_range : Z * Z;
  min_df : Z
}.

(** The arguments given to [BERTopic(...)]. *)
Record bertopic_config (embedder : Type) : Type := BERTopic {
  embedding_model : embedder;
  vectorizer_model : vectorizer_config;
  language : str;
  min_topic_size : Z;
  nr_topics : str;
  verbose : bool
}.
Arguments BERTopic {embedder}.
Arguments vectorizer_model {embedder}.

(** One row of the data frame of [get_topic_info()], with the two columns
    the pipeline reads. *)
Record topic_row : Type := TopicRow { Topic : Z; Name : str }.

(** What the topic model answers once fitted: the pair returned by
    [fit_transform], the rows of [get_topic_info()], and [get_topic(t)],
    which is a list of (word, score) pairs or [False] (here [None]). *)
Record fitted : Type := Fitted {
  topics : list Z;
  probabilities : option (list float);
  get_topic_info : list topic_row;
  get_topic : Z → option (list (str * float))
}.

Record library : Type := Library {
  embedder : Type;
  SentenceTransformer : str → M embedder;
  fit_transform : bertopic_config embedder → list str → M fitted
}.

(** ** [cluster_articles] *)

Definition french_stop_words : list str :=
  [ s "le"; s "la"; s "les"; s "de"; s "du"; s "des"; s "un"; s "une";
    s "et"; s "est"; s "en"; s "que"; s "qui"; s "dans"; s "pour"; s "sur";
    s "avec"; s "par"; s "au"; s "aux"; s "ce"; s "cette"; s "ces"; s "son";
    s "sa"; s "ses"; s "leur"; s "leurs"; s "nous"; s "vous"; s "ils";
    s "elles"; s "ont"; s "sont"; 234%N :: s "tre"; s "avoir"; s "fait";
    s "faire"; s "plus"; s "tout"; s "tous"; s "toute"; s "toutes"; s "peut";
    s "m" ++ 234%N :: s "me"; s "aussi"; s "comme"; s "mais"; s "ou";
    s "donc"; s "car"; s "ni"; s "ne"; s "pas"; s "se"; s "si"; s "sans" ].

(** [f"{article.get('title', '')} {article.get('excerpt', '')}".strip()] *)
Definition derived_text (a : article) : str :=
  strip (get (a_title a) [] ++ s " " ++ get (a_excerpt a) []).

(** [article.get('id', '')] *)
Definition article_id (a : article) : str := get (a_id a) [].

(** Truth value of a [str] or a list: [if text:], [not articles]. *)
Definition nonempty {A} (x : list A) : bool :=
  match x with [] => false | _ :: _ => true end.

(** The loop of lines 52-56, from the current [documents] and
    [article_ids]. *)
Fixpoint prepare (articles : list article) (documents article_ids : list str)
  : list str * list str :=
  match articles with
  | [] => (documents, article_ids)
  | a :: rest =>
      let text := derived_text a in
      if nonempty text
      then prepare rest (documents ++ [text]) (article_ids ++ [article_id a])
      else prepare rest documents article_ids
  end.

(** A value of [topic_to_articles[topic_id]]. *)
Record entry : Type := Entry {
  e_id : str;
  e_title : str;
  e_probability : float
}.

(** [topic_to_articles], in insertion order. *)
Abbreviation topic_map := (list (Z * list entry)).

(** [topic_id in d] *)
Fixpoint has_key (topic_id : Z) (d : topic_map) : bool :=
  match d with
  | [] => false
  | (t, _) :: d' => (t =? topic_id) || has_key topic_id d'
  end.

(** [d[topic_id] = []] for a key that [d] does not have. *)
Definition set_new (topic_id : Z) (d : topic_map) : topic_map :=
  d ++ [(topic_id, [])].

(** [d[topic_id].append(e)] *)
Fixpoint append_at (topic_id : Z) (e : entry) (d : topic_map) : M topic_map :=
  match d with
  | [] => raise (PyExn (s "KeyError") (str_of_int topic_id))
  | (t, es) :: d' =>
      if t =? topic_id then ret ((t, es ++ [e]) :: d')
      else let* d'' := append_at topic_id e d' in ret ((t, es) :: d'')
  end.

(** The loop of lines 105-114 from position [idx] on, [tps] being what is
    left of [topics]. *)
Fixpoint group_articles (articles : list article) (article_ids : list str)
    (probs : option (list float)) (idx : nat) (tps : list Z) (d : topic_map)
  : M topic_map :=
  match tps with
  | [] => ret d
  | topic_id :: rest =>
      if topic_id =? -1
      then group_articles articles article_ids probs (S idx) rest d
      else
        let d := if has_key topic_id d then d else set_new topic_id d in
        let* i := index article_ids idx in
        let* a := index articles idx in
        let* p := match probs with
                  | Some ps => np_index ps idx
                  | None => ret 1%float
                  end in
        let* d := append_at topic_id (Entry i (get (a_title a) []) p) d in
        group_articles articles article_ids probs (S idx) rest d
  end.

(** [[word for word, score in topic_words[:5]] if topic_words else []] *)
Definition keywords_of (topic_words : option (list (str * float))) : list str :=
  match topic_words with
  | Some (w :: ws) => (take 5 (w :: ws)).*1
  | Some [] | None => []
  end.

Definition topic_eqb (t : Z) (r : topic_row) : bool := Topic r =? t.

(** [topic_row['Name'].values[0] if len(topic_row) > 0 else f"Topic {t}"] *)
Definition topic_name_of (topic_info : list topic_row) (t : Z) : str :=
  match List.filter (topic_eqb t) topic_info with
  | r :: _ => Name r
  | [] => s "Topic " ++ str_of_int t
  end.

(** The cluster appended at lines 129-135. *)
Definition make_cluster (f : fitted) (topic_id : Z) (topic_articles : list entry)
  : cluster :=
  {| c_id := s "cluster-" ++ str_of_int topic_id;
     c_articleIds := e_id <$> topic_articles;
     c_keywords := keywords_of (get_topic f topic_id);
     c_topicName := topic_name_of (get_topic_info f) topic_id;
     c_size := len topic_articles |}.

(** The loop of lines 117-135 over what is left of
    [topic_to_articles.items()]. *)
Fixpoint build_clusters (f : fitted) (items : topic_map) (clusters : list cluster)
  : list cluster :=
  match items with
  | [] => clusters
  | (topic_id, topic_articles) :: rest =>
      if len topic_articles <? 2 then build_clusters f rest clusters
      else build_clusters f rest
             (clusters ++ [make_cluster f topic_id topic_articles])
  end.

(** [clusters.sort(key=lambda x: x["size"], reverse=True)].  Python's sort is
    stable, also with [reverse=True]: the result is in decreasing order of
    size and clusters of one size keep their order.  [sort_unique] below
    shows that this fixes the result, whatever the algorithm; the embedding
    inserts each cluster in front of the sorted rest. *)
Fixpoint insert_by_size (x : cluster) (l : list cluster) : list cluster :=
  match l with
  | [] => [x]
  | y :: l' =>
      if c_size y <=? c_size x then x :: y :: l'
      else y :: insert_by_size x l'
  end.

Fixpoint sort_by_size (l : list cluster) : list cluster :=
  match l with
  | [] => []
  | x :: l' => insert_by_size x (sort_by_size l')
  end.

(** [[article_ids[idx] for idx, topic_id in enumerate(topics)
      if topic_id == -1]] from position [idx] on. *)
Fixpoint unclustered (article_ids : list str) (idx : nat) (tps : list Z)
  : M (list str) :=
  match tps with
  | [] => ret []
  | topic_id :: rest =>
      if topic_id =? -1
      then let* i := index article_ids idx in
           let* u := unclustered article_ids (S idx) rest in
           ret (i :: u)
      else unclustered article_ids (S idx) rest
  end.

(** The result of lines 44-47 and 59-62. *)
Definition too_few (message : str) : response :=
  {| r_error := None; r_clusters := []; r_unclusteredIds := None;
     r_totalArticles := None; r_clusteredArticles := None;
     r_message := Some message |}.

Definition model_name : str := s "paraphrase-multilingual-MiniLM-L12-v2".

(** Lines 78-82. *)
Definition vectorizer : vectorizer_config :=
  CountVectorizer french_stop_words (1, 2) 2.

(** Lines 85-92. *)
Definition topic_model {E} (embedding_model : E) : bertopic_config E :=
  BERTopic embedding_model vectorizer (s "french") 2 (s "auto") false.

Definition cluster_articles (L : library) (articles : list article)
  : M response :=
  if negb (nonempty articles) || (len articles <? 3)
  then ret (too_few (s "Not enough articles to cluster (minimum 3)"))
  else
    let '(documents, article_ids) := prepare articles [] [] in
    if len documents <? 3
    then ret (too_few (s "Not enough valid documents to cluster"))
    else
      let* embedding_model := SentenceTransformer L model_name in
      let* f := fit_transform L (topic_model embedding_model) documents in
      let* topic_to_articles :=
        group_articles articles article_ids (probabilities f) 0 (topics f) [] in
      let clusters := sort_by_size (build_clusters f topic_to_articles []) in
      let* unclustered_ids := unclustered article_ids 0 (topics f) in
      ret {| r_error := None;
             r_clusters := clusters;
             r_unclusteredIds := Some unclustered_ids;
             r_totalArticles := Some (len documents);
             r_clusteredArticles := Some (len documents - len unclustered_ids);
             r_message :=
               Some (s "Successfully created " ++ str_of_int (len clusters)
                     ++ s " clusters") |}.

(** ** [cluster_endpoint] *)

(** [cluster_articles.remote(articles)] is the call itself. *)
Definition cluster_endpoint (L : library) (data : request) : M response :=
  let articles := default [] (d_articles data) in
  if negb (nonempty articles)
  then ret {| r_error := Some (s "No articles provided"); r_clusters := [];
              r_unclusteredIds := None; r_totalArticles := None;
              r_clusteredArticles := None; r_message := None |}
  else
      try_except (cluster_articles L articles)
        (λ e, ret {| r_error := Some (str_of_exn e); r_clusters := [];
                     r_unclusteredIds := None; r_totalArticles := None;
                     r_clusteredArticles := None;
                     r_message :=
                       Some (s "Clustering failed: " ++ str_of_exn e) |}).

(** ** Sample data

    The five articles of [main] (ids and ASCII renderings of the texts), and
    a library that answers with a fixed label sequence and draws its topic
    words from a fixed vocabulary, less the stop words it was configured
    with. *)

Definition sample_articles : list article :=
  [ Article (Some (s "1")) (Some (s "Macron annonce une reforme des retraites"))
      (Some (s "Le president a presente son projet de loi sur les retraites."));
    Article (Some (s "2")) (Some (s "Retraites : les syndicats appellent a la greve"))
      (Some (s "Une journee de mobilisation nationale est prevue."));
    Article (Some (s "3")) (Some (s "Le climat se rechauffe plus vite que prevu"))
      (Some (s "Les scientifiques alertent sur le changement climatique."));
    Article (Some (s "4")) (Some (s "COP28 : les negociations sur le climat"))
      (Some (s "Les pays tentent de trouver un accord."));
    Article (Some (s "5")) (Some (s "Economie : la BCE maintient ses taux"))
      (Some (s "La banque centrale a decide de ne pas modifier ses taux.")) ].

Definition sample_vocabulary : list str :=
  [ s "retraites"; s "les"; s "climat"; s "reforme"; s "sur"; s "taux";
    s "reforme retraites"; s "accord" ].

Definition fixed_fitted (labels : list Z) (cfg : vectorizer_config) : fitted :=
  {| topics := labels;
     probabilities := None;
     get_topic_info := [TopicRow (-1) (s "-1_outliers"); TopicRow 0 (s "0_first")];
     get_topic := λ t,
       if t =? 7 then None
       else Some ((λ w, (w, 1%float)) <$>
                    filter (λ w, w ∉ stop_words cfg) sample_vocabulary) |}.

Definition fixed_library (labels : list Z) : library :=
  {| embedder := unit;
     SentenceTransformer := λ _, ret ();
     fit_transform := λ cfg _, ret (fixed_fitted labels (vectorizer_model cfg)) |}.

(** The record returned on [sample_articles] when the labels are [labels]. *)
Definition sample_result (labels : list Z) : response :=
  match cluster_articles (fixed_library labels) sample_articles with
  | inr r => r
  | inl _ => too_few []
  end.

(** A library whose model cannot be fitted. *)
Definition failing_library (e : exn) : library :=
  {| embedder := unit;
     SentenceTransformer := λ _, ret ();
     fit_transform := λ _ _, raise e |}.

(** ** The document preparer *)

Lemma nonempty_true {A} (x : list A) : nonempty x = true ↔ x ≠ [].
Proof. destruct x; simpl; split; congruence. Qed.

Example str_of_int_examples :
  str_of_int 0 = s "0" ∧ str_of_int (-1) = s "-1" ∧ str_of_int 120 = s "120".
Proof. repeat split. Qed.

Example strip_example :
  strip (s "  a b" ++ [160%N; 10%N]) = s "a b" ∧ strip (s " ") = [].
Proof. split; reflexivity. Qed.

(** The articles that pass [if text:]. *)
Definition valid (articles : list article) : list article :=
  filter (λ a, derived_text a ≠ []) articles.

Lemma prepare_spec articles documents article_ids :
  prepare articles documents article_ids
  = (documents ++ (derived_text <$> valid articles),
     article_ids ++ (article_id <$> valid articles)).
Proof.
  revert documents article_ids.
  induction articles as [|a rest IH]; intros documents article_ids; simpl.
  - by rewrite !app_nil_r.
  - unfold valid. rewrite filter_cons.
    destruct (nonempty (derived_text a)) eqn:E.
    + apply nonempty_true in E. rewrite decide_True by done.
      rewrite IH, !fmap_cons, <- !app_assoc. done.
    + rewrite decide_False.
      * apply IH.
      * intros H. apply nonempty_true in H. congruence.
Qed.

Lemma valid_length articles : (length (valid articles) ≤ length articles)%nat.
Proof. apply length_filter. Qed.

(** Inversion of a successful run of [cluster_articles]. *)
Tactic Notation "inv_bind" hyp(H) "as" ident(x) ident(E) :=
  match type of H with
  | bind ?m _ = inr _ =>
      destruct m as [?|x] eqn:E; simpl in H; [discriminate H|]
  end.

(** The topic model fitted during [cluster_articles L articles]. *)
Definition fitted_by (L : library) (articles : list article) (f : fitted) : Prop :=
  ∃ e, SentenceTransformer L model_name = inr e
       ∧ fit_transform L (topic_model e) (derived_text <$> valid articles) = inr f.

(** [topic_to_articles] after the loop of lines 105-114. *)
Definition grouped_by (articles : list article) (f : fitted) (d : topic_map) : Prop :=
  group_articles articles (article_id <$> valid articles) (probabilities f)
    0 (topics f) [] = inr d.

(** A result with the five keys of lines 145-151. *)
Definition success (r : response) : Prop :=
  r_error r = None ∧ is_Some (r_unclusteredIds r)
  ∧ is_Some (r_totalArticles r) ∧ is_Some (r_clusteredArticles r)
  ∧ is_Some (r_message r).

Lemma cluster_articles_inv L articles r :
  cluster_articles L articles = inr r →
  ((length (valid articles) < 3)%nat
   ∧ ∃ m, m ≠ [] ∧ r = too_few m)
  ∨ ((3 ≤ length (valid articles))%nat
     ∧ ∃ f d u,
         fitted_by L articles f ∧ grouped_by articles f d
         ∧ unclustered (article_id <$> valid articles) 0 (topics f) = inr u
         ∧ r = {| r_error := None;
                  r_clusters := sort_by_size (build_clusters f d []);
                  r_unclusteredIds := Some u;
                  r_totalArticles := Some (len (valid articles));
                  r_clusteredArticles := Some (len (valid articles) - len u);
                  r_message :=
                    Some (s "Successfully created "
                          ++ str_of_int
                               (len (sort_by_size (build_clusters f d [])))
                          ++ s " clusters") |}).
Proof.
  unfold cluster_articles. intros H.
  destruct (negb (nonempty articles) || (len articles <? 3)) eqn:E1.
  { left. split.
    - pose proof (valid_length articles).
      apply orb_true_iff in E1 as [E1|E1].
      + destruct articles; [simpl in *; lia|discriminate E1].
      + apply Z.ltb_lt in E1. unfold len in E1. lia.
    - eexists. split; [|by inversion H]. done. }
  rewrite prepare_spec in H. simpl in H.
  destruct (len (derived_text <$> valid articles) <? 3) eqn:E2.
  { left. unfold len in E2. rewrite length_fmap in E2. split; [lia|].
    eexists. split; [|by inversion H]. done. }
  right. unfold len in E2. rewrite length_fmap in E2. split; [lia|].
  inv_bind H as em Eem. inv_bind H as f Ef. inv_bind H as d Ed.
  inv_bind H as u Eu.
  exists f, d, u. split; [by eexists|]. split; [done|]. split; [done|].
  unfold ret in H. inversion H. unfold len. by rewrite !length_fmap.
Qed.

Lemma success_not_too_few m : ¬ success (too_few m).
Proof. intros (_ & [? H] & _). discriminate H. Qed.

(** ** Results on too little input, and the endpoint (C2, C3, C4) *)

(** C2: when fewer than 3 articles have a non-empty derived text,
    [cluster_articles] returns without raising a record made of an empty
    [clusters] list and a non-empty [message]; the keys [error],
    [unclusteredIds], [totalArticles] and [clusteredArticles] are absent. *)
Theorem too_few_documents L articles :
  (length (filter (λ a, derived_text a ≠ []) articles) < 3)%nat →
  ∃ message,
    message ≠ []
    ∧ cluster_articles L articles
      = inr {| r_error := None; r_clusters := []; r_unclusteredIds := None;
               r_totalArticles := None; r_clusteredArticles := None;
               r_message := Some message |}.
Proof.
  intros Hlt. unfold cluster_articles.
  destruct (negb (nonempty articles) || (len articles <? 3)) eqn:E1.
  { eexists. split; [|reflexivity]. done. }
  rewrite prepare_spec. simpl.
  destruct (len (derived_text <$> valid articles) <? 3) eqn:E2.
  { eexists. split; [|reflexivity]. done. }
  unfold len in E2. rewrite length_fmap in E2. unfold valid in E2. lia.
Qed.

Lemma too_few_documents_witness :
  ∃ message,
    message ≠ []
    ∧ cluster_articles (fixed_library [0; 0; 0])
        (Article (Some (s "0")) None (Some (s " ")) :: take 2 sample_articles)
      = inr (too_few message).
Proof.
  apply (too_few_documents (fixed_library [0; 0; 0])
           (Article (Some (s "0")) None (Some (s " ")) :: take 2 sample_articles)).
  vm_compute. lia.
Defined.

(** C3: on a request whose article list is empty or missing the endpoint
    returns a record with a non-empty [error] and an empty [clusters] list
    and nothing else; no result of [cluster_articles] on too little input
    has this shape, since those carry a [message] and no [error]. *)
Theorem empty_request L data :
  d_articles data = None ∨ d_articles data = Some [] →
  ∃ err,
    err ≠ []
    ∧ cluster_endpoint L data
      = inr {| r_error := Some err; r_clusters := []; r_unclusteredIds := None;
               r_totalArticles := None; r_clusteredArticles := None;
               r_message := None |}
    ∧ ∀ L' articles r,
        (length (filter (λ a, derived_text a ≠ []) articles) < 3)%nat →
        cluster_articles L' articles = inr r →
        r_error r = None ∧ is_Some (r_message r)
        ∧ cluster_endpoint L data ≠ inr r.
Proof.
  intros Hd. exists (s "No articles provided").
  assert (cluster_endpoint L data
          = inr {| r_error := Some (s "No articles provided"); r_clusters := [];
                   r_unclusteredIds := None; r_totalArticles := None;
                   r_clusteredArticles := None; r_message := None |}) as Heq.
  { unfold cluster_endpoint. by destruct Hd as [-> | ->]. }
  split; [done|]. split; [exact Heq|].
  intros L' articles r Hlt Hr.
  destruct (too_few_documents L' articles Hlt) as (m & Hm & Hr').
  rewrite Hr' in Hr. inversion Hr; subst; clear Hr. simpl.
  split; [done|]. split; [by eexists|].
  rewrite Heq. intros H. inversion H.
Qed.

Lemma empty_request_witness :
  ∃ err,
    err ≠ []
    ∧ cluster_endpoint (fixed_library []) (Request (Some []))
      = inr {| r_error := Some err; r_clusters := []; r_unclusteredIds := None;
               r_totalArticles := None; r_clusteredArticles := None;
               r_message := None |}.
Proof.
  destruct (empty_request (fixed_library []) (Request (Some [])))
    as (err & H1 & H2 & _).
  - right. reflexivity.
  - exists err. split; assumption.
Defined.

(** C4: the endpoint never raises; on a request with articles for which
    [cluster_articles] raises [e], it returns the record with [error] equal
    to [str(e)], an empty [clusters] list, the [message] built from [str(e)],
    and none of the keys of a success result. *)
Theorem pipeline_failure L data :
  (∃ r, cluster_endpoint L data = inr r)
  ∧ ∀ articles e,
      d_articles data = Some articles →
      cluster_articles L articles = inl e →
      cluster_endpoint L data
      = inr {| r_error := Some (str_of_exn e); r_clusters := [];
               r_unclusteredIds := None; r_totalArticles := None;
               r_clusteredArticles := None;
               r_message := Some (s "Clustering failed: " ++ str_of_exn e) |}.
Proof.
  split.
  - unfold cluster_endpoint.
    destruct (negb (nonempty (default [] (d_articles data)))); [by eexists|].
    destruct (cluster_articles L (default [] (d_articles data)));
      simpl; by eexists.
  - intros articles e Hd He. unfold cluster_endpoint. rewrite Hd. simpl.
    destruct articles as [|a rest]; [discriminate He|]. simpl negb. cbv iota.
    rewrite He. reflexivity.
Qed.

Lemma pipeline_failure_witness :
  cluster_endpoint
    (failing_library (PyExn (s "RuntimeError") (s "CUDA out of memory")))
    (Request (Some sample_articles))
  = inr {| r_error := Some (s "CUDA out of memory"); r_clusters := [];
           r_unclusteredIds := None; r_totalArticles := None;
           r_clusteredArticles := None;
           r_message := Some (s "Clustering failed: CUDA out of memory") |}.
Proof.
  apply (proj2 (pipeline_failure
                  (failing_library (PyExn (s "RuntimeError") (s "CUDA out of memory")))
                  (Request (Some sample_articles)))
           sample_articles (PyExn (s "RuntimeError") (s "CUDA out of memory")));
    reflexivity.
Defined.

(** ** The grouping loop *)

(** Labels paired with the ids of the documents they were given to, and the
    ids that carry label [t], in order. *)
Definition ids_with (t : Z) (lab : list (Z * str)) : list str :=
  (filter (λ p, p.1 = t) lab).*2.

Definition group_ids (p : Z * list entry) : list str := e_id <$> p.2.

Lemma ids_with_app t lab lab' :
  ids_with t (lab ++ lab') = ids_with t lab ++ ids_with t lab'.
Proof. unfold ids_with. by rewrite filter_app, fmap_app. Qed.

Lemma ids_with_nil t lab : ids_with t lab = [] ↔ ∀ i, (t, i) ∉ lab.
Proof.
  unfold ids_with. split.
  - intros H i Hin.
    assert ((t, i) ∈ filter (λ p : Z * str, p.1 = t) lab) as Hf
      by (by apply list_elem_of_filter).
    apply (list_elem_of_fmap_2 snd) in Hf. rewrite H in Hf. by inversion Hf.
  - intros H. destruct (filter _ lab) as [|[t' i] l] eqn:E; [done|].
    assert ((t', i) ∈ filter (λ p : Z * str, p.1 = t) lab) as Hf
      by (rewrite E; left).
    apply list_elem_of_filter in Hf as [Ht Hin]. simpl in Ht. subst t'.
    by destruct (H i).
Qed.

Lemma elem_of_ids_with t i lab : i ∈ ids_with t lab ↔ (t, i) ∈ lab.
Proof.
  unfold ids_with. rewrite list_elem_of_fmap. split.
  - intros ([t' i'] & -> & [Ht Hin]%list_elem_of_filter). simpl in *. by subst.
  - intros Hin. exists (t, i). split; [done|]. by apply list_elem_of_filter.
Qed.

Lemma has_key_spec t d : has_key t d = true ↔ t ∈ d.*1.
Proof.
  induction d as [|[t' es] d IH]; simpl.
  - split; [discriminate|]. intros H. inversion H.
  - rewrite orb_true_iff, IH, Z.eqb_eq, elem_of_cons.
    split; (intros [H|H]; [left; congruence|by right]).
Qed.

Lemma append_at_keys t e d d' : append_at t e d = inr d' → d'.*1 = d.*1.
Proof.
  revert d'. induction d as [|[t' es] d IH]; intros d' H; simpl in H.
  - discriminate.
  - destruct (t' =? t).
    + inversion H. done.
    + inv_bind H as d0 E0. inversion H. simpl. f_equal. by apply IH.
Qed.

Lemma append_at_Forall (P Q : Z * list entry → Prop) t e d d' :
  NoDup d.*1 →
  append_at t e d = inr d' →
  (∀ es, P (t, es) → Q (t, es ++ [e])) →
  (∀ p, p.1 ≠ t → P p → Q p) →
  Forall P d → Forall Q d'.
Proof.
  intros Hnd Happ Hhit Hmiss. revert d' Hnd Happ.
  induction d as [|[t' es] d IH]; intros d' Hnd Happ HP; simpl in Happ.
  - discriminate.
  - apply Forall_cons in HP as [HP1 HP]. simpl in Hnd.
    apply NoDup_cons in Hnd as [Hnotin Hnd].
    destruct (t' =? t) eqn:E.
    + apply Z.eqb_eq in E. subst t'. inversion Happ; subst; clear Happ.
      apply Forall_cons. split; [by apply Hhit|].
      apply Forall_forall. intros p Hp. apply Hmiss.
      * intros <-. apply Hnotin. by apply list_elem_of_fmap_2.
      * by eapply Forall_forall in HP.
    + apply Z.eqb_neq in E. inv_bind Happ as d0 E0.
      inversion Happ; subst; clear Happ.
      apply Forall_cons. split; [by apply Hmiss|]. by apply IH.
Qed.

Lemma append_at_perm t e d d' :
  append_at t e d = inr d' →
  concat (group_ids <$> d') ≡ₚ concat (group_ids <$> d) ++ [e_id e].
Proof.
  revert d'. induction d as [|[t' es] d IH]; intros d' H; simpl in H.
  - discriminate.
  - destruct (t' =? t).
    + inversion H; subst; clear H. simpl. unfold group_ids at 1 3. simpl.
      rewrite fmap_app. simpl. rewrite <- !app_assoc.
      apply Permutation_app_head, Permutation_app_comm.
    + inv_bind H as d0 E0. inversion H; subst; clear H. simpl.
      rewrite <- app_assoc. apply Permutation_app_head. by apply IH.
Qed.

Lemma append_at_new t e d :
  t ∉ d.*1 → append_at t e (set_new t d) = inr (d ++ [(t, [e])]).
Proof.
  unfold set_new. induction d as [|[t' es] d IH]; intros Hnotin; simpl.
  - by rewrite Z.eqb_refl.
  - simpl in Hnotin. apply not_elem_of_cons in Hnotin as [Hne Hnotin].
    destruct (t' =? t) eqn:E; [apply Z.eqb_eq in E; congruence|].
    by rewrite IH.
Qed.

(** The state of the loop after the documents of [lab]: one non-empty group
    per non-outlier label met, holding the ids with that label in order. *)
Record grouping (lab : list (Z * str)) (d : topic_map) : Prop := Grouping {
  g_nodup : NoDup d.*1;
  g_groups :
    Forall (λ p, p.1 ≠ -1 ∧ p.2 ≠ [] ∧ group_ids p = ids_with p.1 lab) d;
  g_keys : ∀ t i, (t, i) ∈ lab → t ≠ -1 → t ∈ d.*1;
  g_perm : concat (group_ids <$> d) ≡ₚ (filter (λ p, p.1 ≠ -1) lab).*2
}.

Lemma grouping_nil : grouping [] [].
Proof.
  split; simpl; [constructor|constructor| |done].
  intros t i H. inversion H.
Qed.

Lemma grouping_outlier lab d i :
  grouping lab d → grouping (lab ++ [(-1, i)]) d.
Proof.
  intros [H1 H2 H3 H4]. split; [done| | |].
  - eapply Forall_impl; [exact H2|]. intros [t es] (Ht & Hes & Hids).
    simpl in *. repeat split; try done.
    rewrite ids_with_app, Hids. unfold ids_with at 3.
    rewrite filter_cons, decide_False by (simpl; congruence).
    by rewrite app_nil_r.
  - intros t j [Hin|Hin]%elem_of_app Ht; [by eapply H3|].
    apply list_elem_of_singleton in Hin. congruence.
  - rewrite filter_app, filter_cons, decide_False by (simpl; tauto).
    by rewrite app_nil_r.
Qed.

Lemma grouping_step lab d t e d' :
  t ≠ -1 →
  grouping lab d →
  append_at t e (if has_key t d then d else set_new t d) = inr d' →
  grouping (lab ++ [(t, e_id e)]) d'.
Proof.
  intros Ht [H1 H2 H3 H4] Happ.
  assert (∀ p : Z * list entry,
            p.1 ≠ t →
            p.1 ≠ -1 ∧ p.2 ≠ [] ∧ group_ids p = ids_with p.1 lab →
            p.1 ≠ -1 ∧ p.2 ≠ []
            ∧ group_ids p = ids_with p.1 (lab ++ [(t, e_id e)])) as Hmiss.
  { intros [t' es] Hne (? & ? & Hids). simpl in *. repeat split; try done.
    rewrite ids_with_app, Hids. unfold ids_with at 3.
    rewrite filter_cons, decide_False by (simpl; congruence).
    by rewrite app_nil_r. }
  assert (ids_with t [(t, e_id e)] = [e_id e]) as Hone.
  { unfold ids_with. by rewrite filter_cons, decide_True. }
  destruct (has_key t d) eqn:E.
  - pose proof (append_at_keys _ _ _ _ Happ) as Hk. split.
    + by rewrite Hk.
    + eapply append_at_Forall; [exact H1|exact Happ| |exact Hmiss|exact H2].
      intros es (_ & _ & Hids). simpl in *. repeat split; [done| |].
      * by destruct es.
      * unfold group_ids in *. simpl in *.
        by rewrite fmap_app, Hids, ids_with_app, Hone.
    + rewrite Hk. intros t' i [Hin|Hin]%elem_of_app Ht'; [by eapply H3|].
      apply list_elem_of_singleton in Hin. inversion Hin; subst.
      by apply has_key_spec.
    + rewrite (append_at_perm _ _ _ _ Happ), H4.
      rewrite filter_app, filter_cons, decide_True by done.
      by rewrite fmap_app.
  - assert (t ∉ d.*1) as Hnotin.
    { intros Hin. apply has_key_spec in Hin. congruence. }
    rewrite append_at_new in Happ by done. inversion Happ; subst; clear Happ.
    assert (ids_with t lab = []) as Hnil.
    { apply ids_with_nil. intros i Hin. apply Hnotin. by eapply H3. }
    split.
    + rewrite fmap_app. simpl. apply NoDup_app. split; [done|]. split.
      * intros x Hx ->%list_elem_of_singleton. done.
      * apply NoDup_singleton.
    + apply Forall_app. split.
      * eapply Forall_impl; [exact H2|]. intros p Hp. apply Hmiss; [|done].
        intros <-. destruct Hp as (_ & Hne & Hids). rewrite Hnil in Hids.
        unfold group_ids in Hids. by destruct (p.2).
      * apply Forall_singleton. simpl. repeat split; [done|done|].
        unfold group_ids. simpl. by rewrite ids_with_app, Hnil, Hone.
    + rewrite fmap_app. simpl. intros t' i [Hin|Hin]%elem_of_app Ht'.
      * apply elem_of_app. left. by eapply H3.
      * apply list_elem_of_singleton in Hin. inversion Hin; subst.
        apply elem_of_app. right. left.
    + rewrite fmap_app, concat_app.
      rewrite filter_app, filter_cons, decide_True by done.
      rewrite fmap_app. simpl. by apply Permutation_app_tail.
Qed.

Lemma index_inr {A} (l : list A) i a : index l i = inr a ↔ l !! i = Some a.
Proof.
  unfold index. destruct (l !! i); split; intros H; inversion H; done.
Qed.

Lemma zip_drop_lookup (tps : list Z) (ids : list str) t idx i :
  ids !! idx = Some i →
  zip (t :: tps) (drop idx ids) = (t, i) :: zip tps (drop (S idx) ids).
Proof. intros H. by rewrite (drop_S _ _ _ H). Qed.

Lemma zip_drop_none (tps : list Z) (ids : list str) t idx :
  ids !! idx = None →
  zip (t :: tps) (drop idx ids) = [] ∧ zip tps (drop (S idx) ids) = [].
Proof.
  intros H%lookup_ge_None. rewrite !drop_ge by lia. split; [done|].
  by destruct tps.
Qed.

Lemma group_articles_grouping articles ids probs tps :
  ∀ idx d d' lab,
    grouping lab d →
    group_articles articles ids probs idx tps d = inr d' →
    grouping (lab ++ zip tps (drop idx ids)) d'.
Proof.
  induction tps as [|t tps IH]; intros idx d d' lab Hg H; simpl in H.
  - inversion H; subst. by rewrite app_nil_r.
  - destruct (t =? -1) eqn:Et.
    + apply Z.eqb_eq in Et. subst t.
      destruct (ids !! idx) as [i|] eqn:Ei.
      * rewrite (zip_drop_lookup _ _ _ _ _ Ei), cons_middle, app_assoc.
        eapply IH; [|exact H]. by apply grouping_outlier.
      * destruct (zip_drop_none tps ids (-1) idx Ei) as [-> Hz].
        rewrite <- Hz. by eapply IH.
    + apply Z.eqb_neq in Et.
      inv_bind H as i Ei. inv_bind H as a Ea. inv_bind H as p Ep.
      inv_bind H as d0 Ed0. apply index_inr in Ei.
      rewrite (zip_drop_lookup _ _ _ _ _ Ei), cons_middle, app_assoc.
      eapply IH; [|exact H].
      by apply (grouping_step lab d t (Entry i (get (a_title a) []) p) d0).
Qed.

Lemma unclustered_spec ids tps :
  ∀ idx u,
    unclustered ids idx tps = inr u →
    u = ids_with (-1) (zip tps (drop idx ids)).
Proof.
  induction tps as [|t tps IH]; intros idx u H; simpl in H.
  - by inversion H.
  - destruct (t =? -1) eqn:Et.
    + apply Z.eqb_eq in Et. subst t. inv_bind H as i Ei. inv_bind H as u0 Eu0.
      inversion H; subst; clear H. apply index_inr in Ei.
      rewrite (zip_drop_lookup _ _ _ _ _ Ei). unfold ids_with.
      rewrite filter_cons, decide_True by done. simpl. f_equal.
      by apply IH.
    + apply Z.eqb_neq in Et. destruct (ids !! idx) as [i|] eqn:Ei.
      * rewrite (zip_drop_lookup _ _ _ _ _ Ei). unfold ids_with.
        rewrite filter_cons, decide_False by done. by apply IH.
      * destruct (zip_drop_none tps ids t idx Ei) as [-> Hz].
        rewrite <- Hz. by apply IH.
Qed.

(** When both loops over [topics] succeed, every label has a document. *)
Lemma loops_aligned articles ids probs tps :
  ∀ idx d d' u,
    (idx ≤ length ids)%nat →
    group_articles articles ids probs idx tps d = inr d' →
    unclustered ids idx tps = inr u →
    (idx + length tps ≤ length ids)%nat.
Proof.
  induction tps as [|t tps IH]; intros idx d d' u Hle Hg Hu; simpl in *.
  - lia.
  - destruct (t =? -1).
    + inv_bind Hu as i Ei. inv_bind Hu as u0 Eu0.
      apply index_inr, lookup_lt_Some in Ei.
      specialize (IH (S idx) _ _ _ ltac:(lia) Hg Eu0). lia.
    + inv_bind Hg as i Ei. inv_bind Hg as a Ea. inv_bind Hg as p Ep.
      inv_bind Hg as d0 Ed0. apply index_inr, lookup_lt_Some in Ei.
      specialize (IH (S idx) _ _ _ ltac:(lia) Hg Hu). lia.
Qed.

(** ** Building and sorting the clusters *)

Definition big (p : Z * list entry) : Prop := 2 ≤ len p.2.

Global Instance big_dec p : Decision (big p).
Proof. unfold big. apply _. Defined.

Lemma build_clusters_spec f items clusters :
  build_clusters f items clusters
  = clusters ++ ((λ p, make_cluster f p.1 p.2) <$> filter big items).
Proof.
  revert clusters. induction items as [|[t es] items IH]; intros clusters.
  - simpl. by rewrite app_nil_r.
  - cbn [build_clusters]. rewrite filter_cons. destruct (len es <? 2) eqn:E.
    + apply Z.ltb_lt in E. rewrite decide_False by (unfold big; simpl; lia).
      apply IH.
    + apply Z.ltb_ge in E. rewrite decide_True by (unfold big; simpl; lia).
      rewrite IH, fmap_cons, <- app_assoc. done.
Qed.

Lemma insert_by_size_perm x l : insert_by_size x l ≡ₚ x :: l.
Proof.
  induction l as [|y l IH]; simpl; [done|].
  destruct (c_size y <=? c_size x); [done|].
  rewrite IH. apply Permutation_swap.
Qed.

Lemma sort_by_size_perm l : sort_by_size l ≡ₚ l.
Proof.
  induction l as [|x l IH]; simpl; [done|].
  by rewrite insert_by_size_perm, IH.
Qed.

(** Decreasing order of size. *)
Definition by_size_desc (x y : cluster) : Prop := c_size y ≤ c_size x.

Lemma insert_by_size_sorted x l :
  StronglySorted by_size_desc l → StronglySorted by_size_desc (insert_by_size x l).
Proof.
  induction 1 as [|y l Hl IH Hy]; simpl.
  - repeat constructor.
  - destruct (c_size y <=? c_size x) eqn:E.
    + apply Z.leb_le in E. constructor; [by constructor|].
      constructor; [done|]. eapply Forall_impl; [exact Hy|].
      unfold by_size_desc. intros; lia.
    + apply Z.leb_gt in E. constructor; [done|].
      rewrite insert_by_size_perm. constructor; [|done].
      unfold by_size_desc. lia.
Qed.

Lemma sort_by_size_sorted l : StronglySorted by_size_desc (sort_by_size l).
Proof.
  induction l; simpl; [constructor|]. by apply insert_by_size_sorted.
Qed.

Definition of_size (k : Z) (c : cluster) : Prop := c_size c = k.

Global Instance of_size_dec k c : Decision (of_size k c).
Proof. unfold of_size. apply _. Defined.

Lemma insert_by_size_stable k x l :
  StronglySorted by_size_desc l →
  filter (of_size k) (insert_by_size x l) = filter (of_size k) (x :: l).
Proof.
  induction 1 as [|y l Hl IH Hy]; simpl; [done|].
  destruct (c_size y <=? c_size x) eqn:E; [done|].
  apply Z.leb_gt in E. rewrite (filter_cons _ y), IH, !filter_cons.
  unfold of_size. repeat case_decide; try done. lia.
Qed.

Lemma sort_by_size_stable k l :
  filter (of_size k) (sort_by_size l) = filter (of_size k) l.
Proof.
  induction l as [|x l IH]; simpl; [done|].
  rewrite insert_by_size_stable by apply sort_by_size_sorted.
  by rewrite !filter_cons, IH.
Qed.

(** A list in decreasing order of size is determined by its clusters of
    each size, in order: there is one stable arrangement. *)
Lemma sorted_stable_eq l1 :
  ∀ l2,
    StronglySorted by_size_desc l1 →
    StronglySorted by_size_desc l2 →
    (∀ k, filter (of_size k) l1 = filter (of_size k) l2) →
    l1 = l2.
Proof.
  assert (∀ (y : cluster) l, filter (of_size (c_size y)) (y :: l) ≠ []) as Hne.
  { intros y l. by rewrite filter_cons, decide_True. }
  assert (∀ x y l1 l2,
            StronglySorted by_size_desc (x :: l1) →
            filter (of_size (c_size y)) (x :: l1)
            = filter (of_size (c_size y)) (y :: l2) →
            c_size y ≤ c_size x) as Hle.
  { intros x y l1' l2' Hs Hf.
    assert (y ∈ filter (of_size (c_size y)) (x :: l1')) as Hy.
    { rewrite Hf, filter_cons, decide_True by done. left. }
    apply list_elem_of_filter in Hy as [_ Hy].
    apply StronglySorted_inv in Hs as [_ Hall].
    apply elem_of_cons in Hy as [->|Hy]; [lia|].
    by eapply Forall_forall in Hall. }
  induction l1 as [|x l1 IH]; intros l2 Hs1 Hs2 Hf.
  - destruct l2 as [|y l2]; [done|].
    specialize (Hf (c_size y)). symmetry in Hf. by apply Hne in Hf.
  - destruct l2 as [|y l2].
    { specialize (Hf (c_size x)). by apply Hne in Hf. }
    assert (c_size x = c_size y) as Hxy.
    { pose proof (Hle x y l1 l2 Hs1 (Hf _)).
      pose proof (Hle y x l2 l1 Hs2 (eq_sym (Hf _))). lia. }
    pose proof (Hf (c_size x)) as Hfx.
    rewrite !filter_cons, !decide_True in Hfx by done.
    inversion Hfx; subst y. f_equal.
    apply StronglySorted_inv in Hs1 as [Hs1 _].
    apply StronglySorted_inv in Hs2 as [Hs2 _].
    apply IH; [done|done|]. intros k. specialize (Hf k).
    rewrite !filter_cons in Hf. case_decide; [by inversion Hf|done].
Qed.

Lemma sort_unique l l' :
  StronglySorted by_size_desc l' →
  (∀ k, filter (of_size k) l' = filter (of_size k) l) →
  l' = sort_by_size l.
Proof.
  intros Hs Hf. apply sorted_stable_eq; [done|apply sort_by_size_sorted|].
  intros k. by rewrite Hf, sort_by_size_stable.
Qed.

(** ** The ids of a success result *)

(** The labels of [topics] paired with the ids of the documents at the same
    positions. *)
Definition labelled (articles : list article) (f : fitted) : list (Z * str) :=
  zip (topics f) (article_id <$> valid articles).

Lemma concat_big_sublist (d : topic_map) :
  concat (group_ids <$> filter big d) `sublist_of` concat (group_ids <$> d).
Proof.
  induction d as [|p d IH]; [done|].
  rewrite filter_cons. case_decide; simpl.
  - by apply sublist_app.
  - by apply sublist_inserts_l.
Qed.

Lemma cluster_ids_spec f (d : topic_map) :
  concat (c_articleIds <$> sort_by_size (build_clusters f d []))
  ≡ₚ concat (group_ids <$> filter big d).
Proof.
  rewrite sort_by_size_perm, build_clusters_spec. simpl.
  by rewrite <- list_fmap_compose.
Qed.

(** What a success result is made of. *)
Lemma cluster_articles_success L articles r u :
  cluster_articles L articles = inr r →
  r_unclusteredIds r = Some u →
  ∃ f d,
    fitted_by L articles f ∧ grouped_by articles f d
    ∧ (length (topics f) ≤ length (valid articles))%nat
    ∧ grouping (labelled articles f) d
    ∧ u = ids_with (-1) (labelled articles f)
    ∧ r_clusters r = sort_by_size (build_clusters f d [])
    ∧ r_totalArticles r = Some (len (valid articles))
    ∧ r_clusteredArticles r = Some (len (valid articles) - len u).
Proof.
  intros Hr Hu.
  destruct (cluster_articles_inv _ _ _ Hr)
    as [(_ & m & _ & ->)|(_ & f & d & u' & Hf & Hd & Hu' & ->)];
    [discriminate Hu|].
  simpl in Hu. inversion Hu; subst u'; clear Hu.
  exists f, d. split; [done|]. split; [done|].
  pose proof (loops_aligned _ _ _ _ 0%nat _ _ _ ltac:(lia) Hd Hu') as Hlen.
  rewrite length_fmap in Hlen. simpl in Hlen. split; [done|].
  split.
  { apply (group_articles_grouping _ _ _ _ 0%nat [] d []) in Hd;
      [exact Hd|apply grouping_nil]. }
  split; [|done].
  by apply (unclustered_spec _ _ 0%nat) in Hu'.
Qed.

Lemma labelled_fst articles f :
  (length (topics f) ≤ length (valid articles))%nat →
  (labelled articles f).*1 = topics f.
Proof. intros H. apply fst_zip. by rewrite length_fmap. Qed.

Lemma labelled_snd_submseteq articles f :
  (labelled articles f).*2 ⊆+ article_id <$> valid articles.
Proof.
  unfold labelled. generalize (topics f) (article_id <$> valid articles).
  intros tps. induction tps as [|t tps IH]; intros ids; simpl.
  - apply submseteq_nil_l.
  - destruct ids as [|i ids]; simpl; [done|]. apply submseteq_skip, IH.
Qed.

Lemma labelled_lookup articles f i t x :
  labelled articles f !! i = Some (t, x)
  ↔ topics f !! i = Some t ∧ (article_id <$> valid articles) !! i = Some x.
Proof. unfold labelled. apply lookup_zip_Some. Qed.

(** All ids of a success result, with multiplicity, are ids of distinct
    articles that have a text. *)
Lemma output_ids_submseteq L articles r u :
  cluster_articles L articles = inr r →
  r_unclusteredIds r = Some u →
  concat (c_articleIds <$> r_clusters r) ++ u
  ⊆+ article_id <$> valid articles.
Proof.
  intros Hr Hu.
  destruct (cluster_articles_success _ _ _ _ Hr Hu)
    as (f & d & _ & _ & _ & Hg & -> & -> & _).
  rewrite cluster_ids_spec.
  transitivity ((labelled articles f).*2); [|apply labelled_snd_submseteq].
  pose proof (filter_app_complement (λ p : Z * str, p.1 = -1)
                (labelled articles f)) as Hsplit.
  apply (fmap_Permutation snd) in Hsplit. rewrite fmap_app in Hsplit.
  rewrite <- Hsplit, (comm (++)). apply submseteq_app; [reflexivity|].
  rewrite <- (g_perm _ _ Hg). apply sublist_submseteq, concat_big_sublist.
Qed.

Lemma submseteq_NoDup {A} (l k : list A) : l ⊆+ k → NoDup k → NoDup l.
Proof.
  intros (k' & Hsub & Hperm)%submseteq_sublist_l Hk.
  eapply sublist_NoDup; [|exact Hsub]. by rewrite Hperm.
Qed.

Lemma valid_ids_sublist articles :
  article_id <$> valid articles `sublist_of` article_id <$> articles.
Proof. apply fmap_sublist, sublist_filter. Qed.

(** ** Sizes, order and counts (C5, C6, C7) *)

Lemma elem_of_clusters f (d : topic_map) c :
  c ∈ sort_by_size (build_clusters f d []) ↔
  ∃ p, p ∈ d ∧ big p ∧ c = make_cluster f p.1 p.2.
Proof.
  rewrite sort_by_size_perm, build_clusters_spec. simpl.
  rewrite list_elem_of_fmap. split.
  - intros (p & -> & [Hb Hp]%list_elem_of_filter). by exists p.
  - intros (p & Hp & Hb & ->). exists p. split; [done|].
    by apply list_elem_of_filter.
Qed.

(** C5: every cluster of a result of [cluster_articles] has
    [size == len(articleIds)] and [size >= 2]. *)
Theorem cluster_size L articles r c :
  cluster_articles L articles = inr r →
  c ∈ r_clusters r →
  c_size c = len (c_articleIds c) ∧ 2 ≤ c_size c.
Proof.
  intros Hr Hc.
  destruct (cluster_articles_inv _ _ _ Hr)
    as [(_ & m & _ & ->)|(_ & f & d & u & _ & _ & _ & ->)].
  { inversion Hc. }
  simpl in Hc. apply elem_of_clusters in Hc as (p & _ & Hb & ->). simpl.
  split; [|exact Hb]. unfold len. by rewrite length_fmap.
Qed.

Lemma cluster_size_witness :
  Forall (λ c, c_size c = len (c_articleIds c) ∧ 2 ≤ c_size c)
    (r_clusters (sample_result [0; 0; 1; 1; -1])).
Proof.
  apply Forall_forall. intros c Hc.
  apply (cluster_size (fixed_library [0; 0; 1; 1; -1]) sample_articles
           (sample_result [0; 0; 1; 1; -1]) c).
  - vm_compute. reflexivity.
  - exact Hc.
Defined.

(** C6: the clusters of a success result are in decreasing order of size,
    and for every size the clusters of that size come in the order in which
    the loop over the groups built them: the sort is stable.  The result
    holds the clusters the loop built, all of them and no other. *)
Theorem clusters_sorted L articles r :
  cluster_articles L articles = inr r →
  success r →
  StronglySorted (λ x y, c_size y ≤ c_size x) (r_clusters r)
  ∧ ∃ f d,
      fitted_by L articles f ∧ grouped_by articles f d
      ∧ r_clusters r ≡ₚ build_clusters f d []
      ∧ ∀ k : Z,
          filter (λ c, c_size c = k) (r_clusters r)
          = filter (λ c, c_size c = k) (build_clusters f d []).
Proof.
  intros Hr Hs.
  destruct (cluster_articles_inv _ _ _ Hr)
    as [(_ & m & _ & ->)|(_ & f & d & u & Hf & Hd & _ & ->)].
  { by apply success_not_too_few in Hs. }
  simpl. split; [apply sort_by_size_sorted|].
  exists f, d. split; [done|]. split; [done|].
  split; [apply sort_by_size_perm|]. intros k. apply (sort_by_size_stable k).
Qed.

Lemma clusters_sorted_witness :
  c_size <$> r_clusters (sample_result [0; 0; 1; 1; 1]) = [3; 2]
  ∧ StronglySorted (λ x y, c_size y ≤ c_size x)
      (r_clusters (sample_result [0; 0; 1; 1; 1])).
Proof.
  split; [vm_compute; reflexivity|].
  apply (clusters_sorted (fixed_library [0; 0; 1; 1; 1]) sample_articles
           (sample_result [0; 0; 1; 1; 1])).
  - vm_compute. reflexivity.
  - vm_compute. repeat split; by eexists.
Defined.

Definition small (p : Z * list entry) : Prop := ¬ big p.

(** C7: in a success result [totalArticles] is the number of articles with
    a non-empty derived text, and [clusteredArticles] is that number less
    the length of [unclusteredIds].  So [clusteredArticles] counts the ids
    listed in the clusters, and also the members of the groups of fewer
    than 2 documents that line 118 skips, and the documents that were given
    no label. *)
Theorem article_counts L articles r u :
  cluster_articles L articles = inr r →
  r_unclusteredIds r = Some u →
  let total := len (filter (λ a, derived_text a ≠ []) articles) in
  r_totalArticles r = Some total
  ∧ r_clusteredArticles r = Some (total - len u)
  ∧ ∃ f d,
      fitted_by L articles f ∧ grouped_by articles f d
      ∧ total - len u
        = len (concat (c_articleIds <$> r_clusters r))
          + len (concat (group_ids <$> filter small d))
          + (total - len (topics f)).
Proof.
  intros Hr Hu total.
  destruct (cluster_articles_success _ _ _ _ Hr Hu)
    as (f & d & Hf & Hd & Hlen & Hg & -> & Hc & Ht & Hca).
  split; [done|]. split; [done|]. exists f, d. split; [done|]. split; [done|].
  rewrite Hc. unfold len. rewrite cluster_ids_spec.
  pose proof (filter_app_complement (λ p : Z * str, p.1 = -1)
                (labelled articles f)) as Hsplit.
  apply (fmap_Permutation snd), Permutation_length in Hsplit.
  rewrite fmap_app, length_app in Hsplit.
  pose proof (Permutation_length (g_perm _ _ Hg)) as Hgl.
  assert (concat (group_ids <$> (filter big d ++ filter (λ p, ¬ big p) d))
          ≡ₚ concat (group_ids <$> d)) as Hd2
    by (by rewrite filter_app_complement).
  apply Permutation_length in Hd2.
  rewrite fmap_app, concat_app, length_app in Hd2.
  assert (length (labelled articles f).*2 = length (topics f)) as Hl.
  { rewrite length_fmap. unfold labelled. rewrite length_zip, length_fmap. lia. }
  unfold ids_with, small. fold total. lia.
Qed.

Lemma article_counts_witness :
  c_articleIds <$> r_clusters (sample_result [0; 1; 1; 3; -1])
  = [[s "2"; s "3"]]
  ∧ r_totalArticles (sample_result [0; 1; 1; 3; -1]) = Some 5
  ∧ r_clusteredArticles (sample_result [0; 1; 1; 3; -1]) = Some 4.
Proof.
  split; [vm_compute; reflexivity|].
  destruct (article_counts (fixed_library [0; 1; 1; 3; -1]) sample_articles
              (sample_result [0; 1; 1; 3; -1]) [s "5"]) as (Ht & Hc & _).
  - vm_compute. reflexivity.
  - vm_compute. reflexivity.
  - split; [exact Ht|exact Hc].
Defined.

(** ** Which ids a success result holds (C1, C8, C10) *)

Lemma NoDup_fmap_eq {A B} (f : A → B) (l : list A) a b :
  NoDup (f <$> l) → a ∈ l → b ∈ l → f a = f b → a = b.
Proof.
  intros Hnd [i Hi]%list_elem_of_lookup [j Hj]%list_elem_of_lookup Hab.
  assert (i = j) as ->.
  { eapply (NoDup_lookup _ _ _ (f a) Hnd); rewrite list_lookup_fmap.
    - by rewrite Hi.
    - by rewrite Hj, Hab. }
  congruence.
Qed.

Lemma length_ids_with t lab :
  length (ids_with t lab) = length (filter (λ t', t' = t) lab.*1).
Proof.
  unfold ids_with. rewrite length_fmap.
  induction lab as [|[t' i] lab IH]; [done|].
  rewrite fmap_cons, !filter_cons. simpl.
  destruct (decide (t' = t)); simpl; by rewrite IH.
Qed.

Lemma elem_of_concat {A} (ls : list (list A)) x :
  x ∈ concat ls ↔ ∃ l, l ∈ ls ∧ x ∈ l.
Proof.
  induction ls as [|l ls IH]; simpl.
  - split; [intros H; inversion H|intros (l & H & _); inversion H].
  - rewrite elem_of_app, IH. split.
    + intros [H|(l' & H1 & H2)]; [exists l; split; [left|done]|].
      exists l'. split; [by right|done].
    + intros (l' & [->|H1]%elem_of_cons & H2); [by left|].
      right. by exists l'.
Qed.

Lemma elem_of_big_groups (d : topic_map) x :
  x ∈ concat (group_ids <$> filter big d)
  ↔ ∃ p, p ∈ d ∧ big p ∧ x ∈ group_ids p.
Proof.
  rewrite elem_of_concat. split.
  - intros (ids & (p & -> & [Hb Hp]%list_elem_of_filter)%list_elem_of_fmap & Hx).
    by exists p.
  - intros (p & Hp & Hb & Hx). exists (group_ids p). split; [|done].
    apply list_elem_of_fmap_2. by apply list_elem_of_filter.
Qed.

(** With distinct ids, the id at position [i] of the documents is in
    [unclusteredIds] exactly when the label at [i] is -1, and in a cluster
    exactly when the label at [i] is not -1 and is given to 2 documents or
    more. *)
Lemma position_of_id articles f (d : topic_map) i x :
  NoDup (article_id <$> valid articles) →
  (length (topics f) ≤ length (valid articles))%nat →
  grouping (labelled articles f) d →
  (article_id <$> valid articles) !! i = Some x →
  (x ∈ ids_with (-1) (labelled articles f) ↔ topics f !! i = Some (-1))
  ∧ (x ∈ concat (group_ids <$> filter big d)
     ↔ ∃ t, topics f !! i = Some t ∧ t ≠ -1
            ∧ (2 ≤ length (filter (λ t', t' = t) (topics f)))%nat).
Proof.
  intros Hnd Hlen Hg Hi.
  assert (∀ t, (t, x) ∈ labelled articles f ↔ topics f !! i = Some t) as Hin.
  { intros t. rewrite list_elem_of_lookup. split.
    - intros (j & [Ht Hj]%labelled_lookup).
      by rewrite <- (NoDup_lookup _ _ _ _ Hnd Hi Hj) in Ht.
    - intros Ht. exists i. by apply labelled_lookup. }
  assert (∀ t, length (ids_with t (labelled articles f))
               = length (filter (λ t', t' = t) (topics f))) as Hcount.
  { intros t. by rewrite length_ids_with, labelled_fst. }
  split.
  - by rewrite elem_of_ids_with.
  - rewrite elem_of_big_groups. split.
    + intros ([t es] & Hp & Hb & Hx).
      pose proof (proj1 (Forall_forall _ _) (g_groups _ _ Hg) _ Hp)
        as (Ht & _ & Hids). simpl in *.
      exists t. rewrite Hids, elem_of_ids_with in Hx.
      split; [by apply Hin|]. split; [done|].
      rewrite <- Hcount, <- Hids. unfold big, len, group_ids in *.
      simpl in *. rewrite length_fmap. lia.
    + intros (t & Hti & Ht & Hc). apply Hin in Hti.
      pose proof (g_keys _ _ Hg _ _ Hti Ht) as Hk.
      apply list_elem_of_fmap in Hk as ([t' es] & Heq & Hp). simpl in Heq.
      subst t'. exists (t, es).
      pose proof (proj1 (Forall_forall _ _) (g_groups _ _ Hg) _ Hp)
        as (_ & _ & Hids). simpl in *.
      split; [done|]. split.
      * rewrite <- Hcount, <- Hids in Hc. unfold big, len, group_ids in *.
        simpl in *. rewrite length_fmap in Hc. lia.
      * rewrite Hids. by apply elem_of_ids_with.
Qed.

Lemma valid_ids_NoDup articles :
  NoDup (article_id <$> articles) → NoDup (article_id <$> valid articles).
Proof. intros H. eapply sublist_NoDup; [exact H|apply valid_ids_sublist]. Qed.

Lemma empty_text_id_not_valid articles a :
  NoDup (article_id <$> articles) →
  a ∈ articles → derived_text a = [] →
  article_id a ∉ article_id <$> valid articles.
Proof.
  intros Hnd Ha Hempty (b & Hab & [Hb Hin]%list_elem_of_filter)%list_elem_of_fmap.
  assert (a = b) by (by eapply NoDup_fmap_eq). by subst b.
Qed.

(** C1, as the code has it: in a success result on articles with pairwise
    distinct ids no id occurs twice, and every id is the id of an input
    article.  The id of an article is in [unclusteredIds] exactly when its
    document was given the label -1, and in the [articleIds] of a cluster
    exactly when its document was given another label that 2 documents or
    more were given.  It is absent when its derived text is empty, and also
    when its document is the only one with its label or was given no
    label. *)
Theorem id_partition L articles r u :
  NoDup (article_id <$> articles) →
  cluster_articles L articles = inr r →
  r_unclusteredIds r = Some u →
  let clustered := concat (c_articleIds <$> r_clusters r) in
  NoDup (clustered ++ u)
  ∧ (∀ x, x ∈ clustered ++ u → x ∈ article_id <$> articles)
  ∧ ∃ f,
      fitted_by L articles f
      ∧ ∀ a, a ∈ articles →
          (derived_text a = [] ∧ article_id a ∉ clustered ++ u)
          ∨ ∃ i : nat,
              filter (λ a, derived_text a ≠ []) articles !! i = Some a
              ∧ (article_id a ∈ u ↔ topics f !! i = Some (-1))
              ∧ (article_id a ∈ clustered
                 ↔ ∃ t, topics f !! i = Some t ∧ t ≠ -1
                        ∧ (2 ≤ length (filter (λ t', t' = t) (topics f)))%nat).
Proof.
  intros Hnd Hr Hu clustered.
  pose proof (output_ids_submseteq _ _ _ _ Hr Hu) as Hsub.
  fold clustered in Hsub.
  pose proof (valid_ids_NoDup _ Hnd) as Hndv.
  split; [by eapply submseteq_NoDup|].
  split.
  { intros x Hx. eapply elem_of_submseteq; [exact Hx|].
    etransitivity; [exact Hsub|].
    apply sublist_submseteq, valid_ids_sublist. }
  destruct (cluster_articles_success _ _ _ _ Hr Hu)
    as (f & d & Hf & _ & Hlen & Hg & Hueq & Hc & _).
  exists f. split; [done|]. intros a Ha.
  destruct (decide (derived_text a = [])) as [Hempty|Htext].
  - left. split; [done|]. intros Hin.
    eapply empty_text_id_not_valid; [exact Hnd|exact Ha|exact Hempty|].
    by eapply elem_of_submseteq.
  - right.
    assert (a ∈ valid articles) as [i Hi]%list_elem_of_lookup
      by (by apply list_elem_of_filter).
    exists i. split; [exact Hi|].
    assert ((article_id <$> valid articles) !! i = Some (article_id a)) as Hid
      by (by rewrite list_lookup_fmap, Hi).
    destruct (position_of_id _ _ _ _ _ Hndv Hlen Hg Hid) as [H1 H2].
    split; [by rewrite Hueq|].
    unfold clustered. by rewrite Hc, cluster_ids_spec.
Qed.

Lemma id_partition_witness :
  NoDup (concat (c_articleIds <$> r_clusters (sample_result [0; 1; 1; -1; -1]))
         ++ [s "4"; s "5"])
  ∧ ∀ x, x ∈ concat (c_articleIds <$> r_clusters (sample_result [0; 1; 1; -1; -1]))
               ++ [s "4"; s "5"] →
         x ∈ article_id <$> sample_articles.
Proof.
  destruct (id_partition (fixed_library [0; 1; 1; -1; -1]) sample_articles
              (sample_result [0; 1; 1; -1; -1]) [s "4"; s "5"])
    as (H1 & H2 & _).
  - vm_compute. apply NoDup_ListNoDup. repeat constructor; simpl; intuition discriminate.
  - vm_compute. reflexivity.
  - vm_compute. reflexivity.
  - split; [exact H1|exact H2].
Defined.

(** The claim C1 as it is written fails: the first sample article has a
    text and a label of its own; its id is in no cluster and not in
    [unclusteredIds]. *)
Lemma id_partition_counterexample :
  cluster_articles (fixed_library [0; 1; 1; -1; -1]) sample_articles
  = inr (sample_result [0; 1; 1; -1; -1])
  ∧ NoDup (article_id <$> sample_articles)
  ∧ c_articleIds <$> r_clusters (sample_result [0; 1; 1; -1; -1])
    = [[s "2"; s "3"]]
  ∧ r_unclusteredIds (sample_result [0; 1; 1; -1; -1]) = Some [s "4"; s "5"]
  ∧ (article_id <$> sample_articles) !! 0%nat = Some (s "1")
  ∧ (derived_text <$> sample_articles) !! 0%nat
    = Some (s "Macron annonce une reforme des retraites Le president a presente son projet de loi sur les retraites.")
  ∧ s "1" ∉ [s "2"; s "3"] ++ [s "4"; s "5"].
Proof.
  split; [vm_compute; reflexivity|].
  split; [vm_compute; apply NoDup_ListNoDup;
          repeat constructor; simpl; intuition discriminate|].
  split; [vm_compute; reflexivity|].
  split; [vm_compute; reflexivity|].
  split; [vm_compute; reflexivity|].
  split; [vm_compute; reflexivity|].
  intros H. vm_compute in H. apply list_elem_of_In in H. simpl in H.
  intuition discriminate.
Qed.

(** *** [strip] removes the white space at both ends, and nothing else *)

Definition spaces (x : str) : Prop := Forall (λ c, is_space c = true) x.

Lemma lstrip_spec x :
  ∃ pre, x = pre ++ lstrip x ∧ spaces pre
         ∧ ∀ c, head (lstrip x) = Some c → is_space c = false.
Proof.
  induction x as [|c x (pre & Hx & Hpre & Hhead)]; simpl.
  - exists []. repeat split; [constructor|]. intros c H. inversion H.
  - destruct (is_space c) eqn:E.
    + exists (c :: pre). simpl. split; [by f_equal|].
      split; [by constructor|done].
    + exists []. simpl. split; [done|]. split; [constructor|].
      intros c' H. by inversion H; subst.
Qed.

Lemma last_rev {A} (x : list A) : last x = head (rev x).
Proof.
  induction x as [|a x IH] using rev_ind; [done|].
  by rewrite last_snoc, rev_app_distr.
Qed.

Lemma rstrip_spec x :
  ∃ post, x = rstrip x ++ post ∧ spaces post
          ∧ ∀ c, last (rstrip x) = Some c → is_space c = false.
Proof.
  unfold rstrip. destruct (lstrip_spec (rev x)) as (pre & Hx & Hpre & Hhead).
  exists (rev pre). split; [|split].
  - by rewrite <- rev_app_distr, <- Hx, rev_involutive.
  - unfold spaces in *. apply Forall_forall. intros c Hc.
    apply list_elem_of_In, in_rev, list_elem_of_In in Hc.
    by eapply Forall_forall in Hpre.
  - intros c. rewrite last_rev, rev_involutive. apply Hhead.
Qed.

Lemma strip_spec x :
  ∃ pre post,
    x = pre ++ strip x ++ post ∧ spaces pre ∧ spaces post
    ∧ (∀ c, head (strip x) = Some c → is_space c = false)
    ∧ (∀ c, last (strip x) = Some c → is_space c = false).
Proof.
  unfold strip. destruct (lstrip_spec x) as (pre & Hx & Hpre & Hhead).
  destruct (rstrip_spec (lstrip x)) as (post & Hy & Hpost & Hlast).
  exists pre, post. split; [by rewrite <- Hy|].
  split; [done|]. split; [done|]. split; [|done].
  intros c Hc. destruct (rstrip (lstrip x)) as [|c' y] eqn:E; [done|].
  simpl in Hc. inversion Hc; subst c'. apply Hhead. by rewrite Hy.
Qed.

(** *** The titles kept in [topic_to_articles] do not reach the result *)

Definition forget_title (e : entry) : entry :=
  Entry (e_id e) [] (e_probability e).

Definition forget_titles (d : topic_map) : topic_map :=
  (λ p : Z * list entry, (p.1, forget_title <$> p.2)) <$> d.

Definition forget_titles_M (m : M topic_map) : M topic_map :=
  match m with inl e => inl e | inr d => inr (forget_titles d) end.

Lemma has_key_forget t d : has_key t (forget_titles d) = has_key t d.
Proof. induction d as [|[t' es] d IH]; simpl; [done|]. by rewrite IH. Qed.

Lemma append_at_forget t e d :
  forget_titles_M (append_at t e d)
  = append_at t (forget_title e) (forget_titles d).
Proof.
  induction d as [|[t' es] d IH]; simpl; [done|].
  destruct (t' =? t); simpl.
  - by rewrite fmap_app.
  - rewrite <- IH. by destruct (append_at t e d).
Qed.

Lemma build_clusters_forget f d :
  ∀ clusters,
    build_clusters f (forget_titles d) clusters = build_clusters f d clusters.
Proof.
  induction d as [|[t es] d IH]; intros clusters; simpl; [done|].
  assert (len (forget_title <$> es) = len es) as ->
    by (unfold len; by rewrite length_fmap).
  assert (make_cluster f t (forget_title <$> es) = make_cluster f t es) as ->.
  { unfold make_cluster, len.
    by rewrite <- list_fmap_compose, length_fmap. }
  by rewrite !IH.
Qed.

Lemma group_articles_titles arts1 arts2 ids probs tps :
  (length ids ≤ length arts1)%nat →
  (length ids ≤ length arts2)%nat →
  ∀ idx d1 d2,
    forget_titles d1 = forget_titles d2 →
    forget_titles_M (group_articles arts1 ids probs idx tps d1)
    = forget_titles_M (group_articles arts2 ids probs idx tps d2).
Proof.
  intros Hl1 Hl2.
  induction tps as [|t tps IH]; intros idx d1 d2 Hd; simpl.
  - by rewrite Hd.
  - destruct (t =? -1); [by apply IH|].
    assert (has_key t d1 = has_key t d2) as Hk
      by (by rewrite <- (has_key_forget t d1), Hd, has_key_forget).
    rewrite Hk.
    set (d1' := if has_key t d2 then d1 else set_new t d1).
    set (d2' := if has_key t d2 then d2 else set_new t d2).
    assert (forget_titles d1' = forget_titles d2') as Hd'.
    { unfold d1', d2', set_new, forget_titles in *.
      destruct (has_key t d2); [done|]. by rewrite !fmap_app, Hd. }
    unfold index at 1 3. destruct (ids !! idx) as [i|] eqn:Ei; [|done].
    simpl. apply lookup_lt_Some in Ei.
    destruct (lookup_lt_is_Some_2 arts1 idx ltac:(lia)) as [a1 Ha1].
    destruct (lookup_lt_is_Some_2 arts2 idx ltac:(lia)) as [a2 Ha2].
    unfold index. rewrite Ha1, Ha2. simpl.
    destruct (match probs with
              | Some ps => np_index ps idx
              | None => ret 1%float
              end) as [e|p]; [done|].
    simpl.
    pose proof (append_at_forget t (Entry i (get (a_title a1) []) p) d1') as H1.
    pose proof (append_at_forget t (Entry i (get (a_title a2) []) p) d2') as H2.
    unfold forget_title in H1, H2. simpl in H1, H2.
    rewrite Hd', <- H2 in H1.
    destruct (append_at t (Entry i (get (a_title a1) []) p) d1') as [e1|d1''],
             (append_at t (Entry i (get (a_title a2) []) p) d2') as [e2|d2''];
      simpl in *; try done.
    apply IH. by inversion H1.
Qed.

(** [cluster_articles] reads its argument through the first test, the
    derived texts and the ids of the articles that have a text. *)
Lemma cluster_articles_ext L arts1 arts2 :
  negb (nonempty arts1) || (len arts1 <? 3)
  = negb (nonempty arts2) || (len arts2 <? 3) →
  derived_text <$> valid arts1 = derived_text <$> valid arts2 →
  article_id <$> valid arts1 = article_id <$> valid arts2 →
  cluster_articles L arts1 = cluster_articles L arts2.
Proof.
  intros H1 H2 H3. unfold cluster_articles.
  rewrite !prepare_spec, H1, H2, H3. simpl.
  destruct (negb (nonempty arts2) || (len arts2 <? 3)); [done|].
  destruct (len (derived_text <$> valid arts2) <? 3); [done|].
  destruct (SentenceTransformer L model_name) as [e|em]; [done|]. simpl.
  destruct (fit_transform L (topic_model em) (derived_text <$> valid arts2))
    as [e|f]; [done|]. simpl.
  pose proof (group_articles_titles arts1 arts2 (article_id <$> valid arts2)
                (probabilities f) (topics f)) as Hg.
  rewrite <- H3 in Hg at 1. rewrite !length_fmap in Hg.
  specialize (Hg (valid_length _) (valid_length _) 0%nat [] [] eq_refl).
  destruct (group_articles arts1 _ _ _ _ _) as [e1|d1],
           (group_articles arts2 _ _ _ _ _) as [e2|d2];
    simpl in *; try done.
  - by inversion Hg.
  - inversion Hg as [Hd].
    by rewrite <- (build_clusters_forget f d1), Hd, build_clusters_forget.
Qed.

Lemma valid_idem articles : valid (valid articles) = valid articles.
Proof.
  unfold valid. induction articles as [|a articles IH]; [done|].
  rewrite filter_cons. case_decide; [|done].
  by rewrite filter_cons, decide_True, IH.
Qed.

(** C8: the derived text of an article is its title (or the empty string),
    a space and its excerpt (or the empty string), less the white space at
    both ends.  The loop of lines 52-56 keeps the texts and ids of the
    articles whose derived text is not empty, in order.  In a success
    result [totalArticles] counts those articles only, the ids listed are,
    with multiplicity, ids of those articles, so with distinct ids the id of
    an article with an empty text is listed nowhere; and when 3 articles or
    more have a text the call returns (or raises) what it does on the list
    without the others. *)
Theorem empty_text_dropped L articles :
  (∀ a, ∃ pre post,
      get (a_title a) [] ++ s " " ++ get (a_excerpt a) []
      = pre ++ derived_text a ++ post
      ∧ spaces pre ∧ spaces post
      ∧ (∀ c, head (derived_text a) = Some c → is_space c = false)
      ∧ (∀ c, last (derived_text a) = Some c → is_space c = false))
  ∧ prepare articles [] []
    = (derived_text <$> filter (λ a, derived_text a ≠ []) articles,
       article_id <$> filter (λ a, derived_text a ≠ []) articles)
  ∧ (∀ r u,
       cluster_articles L articles = inr r →
       r_unclusteredIds r = Some u →
       r_totalArticles r
       = Some (len (filter (λ a, derived_text a ≠ []) articles))
       ∧ concat (c_articleIds <$> r_clusters r) ++ u
         ⊆+ article_id <$> filter (λ a, derived_text a ≠ []) articles
       ∧ (NoDup (article_id <$> articles) →
          ∀ a, a ∈ articles → derived_text a = [] →
               article_id a ∉ concat (c_articleIds <$> r_clusters r) ++ u))
  ∧ ((3 ≤ length (filter (λ a, derived_text a ≠ []) articles))%nat →
     cluster_articles L articles
     = cluster_articles L (filter (λ a, derived_text a ≠ []) articles)).
Proof.
  split; [intros a; apply strip_spec|].
  split; [apply (prepare_spec articles [] [])|].
  split.
  - intros r u Hr Hu.
    pose proof (output_ids_submseteq _ _ _ _ Hr Hu) as Hsub.
    destruct (cluster_articles_success _ _ _ _ Hr Hu)
      as (f & d & _ & _ & _ & _ & _ & _ & Ht & _).
    split; [exact Ht|]. split; [exact Hsub|].
    intros Hnd a Ha Hempty Hin.
    eapply empty_text_id_not_valid; [exact Hnd|exact Ha|exact Hempty|].
    by eapply elem_of_submseteq.
  - intros H3. fold (valid articles) in *.
    apply cluster_articles_ext; rewrite ?valid_idem; try done.
    pose proof (valid_length articles) as Hle.
    assert ((len articles <? 3) = false) as -> by (unfold len; lia).
    assert ((len (valid articles) <? 3) = false) as -> by (unfold len; lia).
    destruct articles; [simpl in *; lia|].
    destruct (valid (a :: articles)); [simpl in *; lia|]. done.
Qed.

(** Three of the sample articles and one without text, id ["0"]. *)
Definition articles_with_blank : list article :=
  Article (Some (s "0")) None (Some (s "  ")) :: take 3 sample_articles.

Definition result_with_blank : response :=
  match cluster_articles (fixed_library [0; 0; -1]) articles_with_blank with
  | inr r => r
  | inl _ => too_few []
  end.

Lemma empty_text_dropped_witness :
  (s "0" ∉ concat (c_articleIds <$> r_clusters result_with_blank) ++ [s "3"])
  ∧ cluster_articles (fixed_library [0; 0; -1]) articles_with_blank
    = cluster_articles (fixed_library [0; 0; -1]) (take 3 sample_articles).
Proof.
  destruct (empty_text_dropped (fixed_library [0; 0; -1]) articles_with_blank)
    as (_ & _ & H3 & H4).
  split.
  - destruct (H3 result_with_blank [s "3"]) as (_ & _ & H).
    + vm_compute. reflexivity.
    + vm_compute. reflexivity.
    + apply (H ltac:(vm_compute; apply NoDup_ListNoDup;
                     repeat constructor; simpl; intuition discriminate)
               (Article (Some (s "0")) None (Some (s "  ")))).
      * left.
      * vm_compute. reflexivity.
  - rewrite H4; [reflexivity|]. vm_compute. lia.
Defined.

(** ** Keywords (C9) *)

(** What the pipeline relies on from the library: the words of a topic are
    terms of the vectorizer the model was built with, and the vectorizer
    yields no term of its [stop_words]. *)
Definition respects_stop_words (L : library) : Prop :=
  ∀ cfg docs f,
    fit_transform L cfg docs = inr f →
    ∀ t ws w,
      get_topic f t = Some ws → w ∈ ws.*1 →
      w ∉ stop_words (vectorizer_model cfg).

Lemma keywords_of_take tw : keywords_of tw = (take 5 (default [] tw)).*1.
Proof. by destruct tw as [[|w ws]|]. Qed.

(** C9: every cluster of a result has at most 5 keywords; with a library
    that keeps the stop words it is configured with out of the topic words,
    no keyword is one of [french_stop_words]; the keywords are the first 5
    words of the cluster's topic, and the empty list when the topic has no
    word. *)
Theorem keywords_bounded L articles r c :
  respects_stop_words L →
  cluster_articles L articles = inr r →
  c ∈ r_clusters r →
  (length (c_keywords c) ≤ 5)%nat
  ∧ (∀ w, w ∈ c_keywords c → w ∉ french_stop_words)
  ∧ ∃ f t,
      fitted_by L articles f
      ∧ c_id c = s "cluster-" ++ str_of_int t
      ∧ c_keywords c = (take 5 (default [] (get_topic f t))).*1
      ∧ (get_topic f t = None ∨ get_topic f t = Some [] → c_keywords c = []).
Proof.
  intros HL Hr Hc.
  destruct (cluster_articles_inv _ _ _ Hr)
    as [(_ & m & _ & ->)|(_ & f & d & u & Hf & _ & _ & ->)].
  { inversion Hc. }
  simpl in Hc. apply elem_of_clusters in Hc as ([t es] & _ & _ & ->). simpl.
  rewrite keywords_of_take. split; [|split].
  - rewrite length_fmap, length_take. lia.
  - intros w Hw. destruct Hf as (em & _ & Hfit).
    destruct (get_topic f t) as [ws|] eqn:Et; [|inversion Hw].
    apply (HL _ _ _ Hfit t ws w Et). simpl in Hw.
    apply list_elem_of_fmap in Hw as (p & -> & Hp).
    apply list_elem_of_fmap_2. eapply elem_of_submseteq; [exact Hp|].
    apply submseteq_take.
  - exists f, t. split; [done|]. split; [done|]. split; [done|].
    by intros [->| ->].
Qed.

Lemma fixed_library_respects_stop_words labels :
  respects_stop_words (fixed_library labels).
Proof.
  intros cfg docs f Hf t ws w Ht Hw. simpl in Hf. inversion Hf; subst f.
  simpl in Ht. destruct (t =? 7); [discriminate Ht|].
  inversion Ht; subst ws. rewrite <- list_fmap_compose in Hw.
  apply list_elem_of_fmap in Hw as (w' & -> & Hw').
  by apply list_elem_of_filter in Hw' as [Hw' _].
Qed.

Lemma keywords_bounded_witness :
  Forall (λ c, (length (c_keywords c) ≤ 5)%nat
               ∧ ∀ w, w ∈ c_keywords c → w ∉ french_stop_words)
    (r_clusters (sample_result [0; 0; 1; 1; -1])).
Proof.
  apply Forall_forall. intros c Hc.
  destruct (keywords_bounded (fixed_library [0; 0; 1; 1; -1]) sample_articles
              (sample_result [0; 0; 1; 1; -1]) c) as (H1 & H2 & _).
  - apply fixed_library_respects_stop_words.
  - vm_compute. reflexivity.
  - exact Hc.
  - split; [exact H1|exact H2].
Defined.

(** ** Articles without an id (C10) *)

(** The article with the key ['id'] set to what [.get('id', '')] reads. *)
Definition with_default_id (a : article) : article :=
  Article (Some (article_id a)) (a_title a) (a_excerpt a).

Lemma valid_with_default_id articles :
  valid (with_default_id <$> articles) = with_default_id <$> valid articles.
Proof.
  unfold valid. induction articles as [|a articles IH]; [done|].
  rewrite fmap_cons, !filter_cons, IH.
  change (derived_text (with_default_id a)) with (derived_text a).
  by case_decide.
Qed.

(** The first sample article without its id. *)
Definition articles_without_id : list article :=
  Article None (Some (s "Macron annonce une reforme des retraites")) None
  :: drop 1 sample_articles.

Definition result_without_id (labels : list Z) : response :=
  match cluster_articles (fixed_library labels) articles_without_id with
  | inr r => r
  | inl _ => too_few []
  end.

(** C10: an article without the key ['id'] is given the empty string as
    id; the call returns (or raises) what it does when every missing id is
    the empty string, so a missing id is never what makes it fail; and the
    empty id can be listed in the [articleIds] of a cluster or in
    [unclusteredIds]. *)
Theorem missing_id L articles :
  (prepare articles [] []).2
  = (λ a, default [] (a_id a)) <$> filter (λ a, derived_text a ≠ []) articles
  ∧ cluster_articles L articles
    = cluster_articles L (with_default_id <$> articles)
  ∧ (cluster_articles (fixed_library [0; 0; 1; 1; -1]) articles_without_id
     = inr (result_without_id [0; 0; 1; 1; -1])
     ∧ c_articleIds <$> r_clusters (result_without_id [0; 0; 1; 1; -1])
       = [[[]; s "2"]; [s "3"; s "4"]])
  ∧ (cluster_articles (fixed_library [-1; 0; 0; 1; 1]) articles_without_id
     = inr (result_without_id [-1; 0; 0; 1; 1])
     ∧ r_unclusteredIds (result_without_id [-1; 0; 0; 1; 1]) = Some [[]]).
Proof.
  split; [by rewrite prepare_spec|].
  split.
  - apply cluster_articles_ext.
    + unfold len. rewrite length_fmap. by destruct articles.
    + rewrite valid_with_default_id, <- list_fmap_compose. done.
    + rewrite valid_with_default_id, <- list_fmap_compose. done.
  - split; (split; vm_compute; reflexivity).
Qed.

(** * Further properties of [cluster_articles] and [cluster_endpoint] *)

(** ** Which articles are kept, and what the library is given *)

Lemma lstrip_nil x : lstrip x = [] ↔ spaces x.
Proof.
  unfold spaces. induction x as [|c x IH]; simpl.
  - split; [constructor|done].
  - destruct (is_space c) eqn:E.
    + rewrite IH. split; [by constructor|]. by intros [_ H]%Forall_cons.
    + split; [done|]. intros [H _]%Forall_cons. congruence.
Qed.

Lemma spaces_rev x : spaces (rev x) ↔ spaces x.
Proof.
  unfold spaces. rewrite !Forall_forall.
  split; intros H c Hc; apply H; apply list_elem_of_In;
    apply list_elem_of_In in Hc; [by apply in_rev in Hc|by apply in_rev].
Qed.

Lemma rev_nil_iff {A} (x : list A) : rev x = [] ↔ x = [].
Proof.
  split; [|by intros ->]. intros H.
  by rewrite <- (rev_involutive x), H.
Qed.

Lemma strip_nil x : strip x = [] ↔ spaces x.
Proof.
  unfold strip, rstrip.
  destruct (lstrip_spec x) as (pre & Hx & Hpre & Hhead). split.
  - intros H%rev_nil_iff%lstrip_nil. apply (proj1 (spaces_rev _)) in H.
    rewrite Hx. apply Forall_app. split; [exact Hpre|exact H].
  - intros H%lstrip_nil. rewrite H. reflexivity.
Qed.

Lemma lstrip_fixed x :
  (∀ c, head x = Some c → is_space c = false) → lstrip x = x.
Proof.
  destruct x as [|c x]; [done|]. intros H. simpl. by rewrite (H c).
Qed.

Lemma rstrip_fixed x :
  (∀ c, last x = Some c → is_space c = false) → rstrip x = x.
Proof.
  intros H. unfold rstrip. rewrite lstrip_fixed.
  - apply rev_involutive.
  - intros c Hc. apply H. by rewrite last_rev.
Qed.

Lemma strip_idem x : strip (strip x) = strip x.
Proof.
  destruct (strip_spec x) as (_ & _ & _ & _ & _ & Hhead & Hlast).
  unfold strip at 1. rewrite (lstrip_fixed _ Hhead). by apply rstrip_fixed.
Qed.

(** An article is dropped by line 54 exactly when its title and its
    excerpt (each the empty string when absent) hold white space only. *)
Theorem dropped_iff_blank a :
  derived_text a = []
  ↔ spaces (get (a_title a) []) ∧ spaces (get (a_excerpt a) []).
Proof.
  unfold derived_text. rewrite strip_nil. unfold spaces.
  rewrite !Forall_app. split.
  - intros (H1 & _ & H2). by split.
  - intros (H1 & H2). split; [done|]. split; [|done].
    by repeat constructor.
Qed.

(** The documents collected by lines 50-56 are as many as the ids, none is
    empty and none starts or ends with white space: stripping one again
    changes nothing. *)
Theorem documents_trimmed articles :
  length (prepare articles [] []).1 = length (prepare articles [] []).2
  ∧ Forall (λ doc, doc ≠ [] ∧ strip doc = doc
                   ∧ (∀ c, head doc = Some c → is_space c = false)
                   ∧ (∀ c, last doc = Some c → is_space c = false))
      (prepare articles [] []).1.
Proof.
  rewrite prepare_spec. simpl. split; [by rewrite !length_fmap|].
  apply Forall_fmap, Forall_forall. intros a [Ha _]%list_elem_of_filter. simpl.
  split; [done|]. split; [apply strip_idem|].
  destruct (strip_spec (get (a_title a) [] ++ s " " ++ get (a_excerpt a) []))
    as (_ & _ & _ & _ & _ & Hhead & Hlast).
  by split.
Qed.

(** ** Cluster ids *)

Lemma s_inj x y : s x = s y → x = y.
Proof.
  unfold s. intros H.
  rewrite <- (string_of_list_ascii_of_string x),
          <- (string_of_list_ascii_of_string y).
  f_equal. revert H.
  generalize (list_ascii_of_string x) (list_ascii_of_string y).
  intros l. induction l as [|a l IH]; intros [|b k] H; simpl in H;
    try discriminate; [done|].
  inversion H as [[Hab Hlk]]. f_equal; [|by apply IH].
  by rewrite <- (ascii_N_embedding a), <- (ascii_N_embedding b), Hab.
Qed.

Lemma to_int_proper n : Z.to_int n ≠ Decimal.Pos Decimal.Nil
                        ∧ Z.to_int n ≠ Decimal.Neg Decimal.Nil.
Proof.
  destruct n as [|p|p]; simpl; split; try discriminate;
    intros H; inversion H as [Hp];
    by apply DecimalPos.Unsigned.to_uint_nonnil in Hp.
Qed.

Lemma str_of_int_inj n m : str_of_int n = str_of_int m → n = m.
Proof.
  unfold str_of_int. intros H%s_inj. apply DecimalZ.to_int_inj.
  destruct (to_int_proper n) as [Hn1 Hn2], (to_int_proper m) as [Hm1 Hm2].
  pose proof (NilZero.isi _ Hn1 Hn2) as Hn.
  pose proof (NilZero.isi _ Hm1 Hm2) as Hm.
  rewrite H in Hn. congruence.
Qed.

Definition cluster_id_of (t : Z) : str := s "cluster-" ++ str_of_int t.

Global Instance cluster_id_of_inj : Inj (=) (=) cluster_id_of.
Proof.
  intros t t' H. unfold cluster_id_of in H.
  by apply app_inv_head, str_of_int_inj in H.
Qed.

(** The two kinds of result, with what the loops have established. *)
Lemma cluster_articles_cases L articles r :
  cluster_articles L articles = inr r →
  ((length (valid articles) < 3)%nat ∧ ∃ m, m ≠ [] ∧ r = too_few m)
  ∨ ∃ f d,
      (3 ≤ length (valid articles))%nat
      ∧ fitted_by L articles f ∧ grouped_by articles f d
      ∧ (length (topics f) ≤ length (valid articles))%nat
      ∧ grouping (labelled articles f) d
      ∧ r = {| r_error := None;
               r_clusters := sort_by_size (build_clusters f d []);
               r_unclusteredIds := Some (ids_with (-1) (labelled articles f));
               r_totalArticles := Some (len (valid articles));
               r_clusteredArticles :=
                 Some (len (valid articles)
                       - len (ids_with (-1) (labelled articles f)));
               r_message :=
                 Some (s "Successfully created "
                       ++ str_of_int
                            (len (sort_by_size (build_clusters f d [])))
                       ++ s " clusters") |}.
Proof.
  intros Hr.
  destruct (cluster_articles_inv _ _ _ Hr)
    as [H|(H3 & f & d & u & Hf & Hd & Hu & ->)]; [by left|right].
  exists f, d. split; [done|]. split; [done|]. split; [done|].
  pose proof (loops_aligned _ _ _ _ 0%nat _ _ _ ltac:(lia) Hd Hu) as Hlen.
  rewrite length_fmap in Hlen. simpl in Hlen. split; [done|].
  split.
  { apply (group_articles_grouping _ _ _ _ 0%nat [] d []) in Hd;
      [exact Hd|apply grouping_nil]. }
  apply (unclustered_spec _ _ 0%nat) in Hu. by subst u.
Qed.

Lemma group_size articles f (d : topic_map) p :
  (length (topics f) ≤ length (valid articles))%nat →
  grouping (labelled articles f) d →
  p ∈ d →
  p.1 ≠ -1
  ∧ group_ids p = ids_with p.1 (labelled articles f)
  ∧ length p.2 = length (filter (λ t', t' = p.1) (topics f)).
Proof.
  intros Hlen Hg Hp.
  pose proof (proj1 (Forall_forall _ _) (g_groups _ _ Hg) _ Hp)
    as (Ht & _ & Hids).
  split; [done|]. split; [done|].
  rewrite <- (labelled_fst articles f Hlen), <- length_ids_with, <- Hids.
  unfold group_ids. by rewrite length_fmap.
Qed.

(** The clusters of a result have pairwise distinct ids, each of them
    ["cluster-"] followed by the decimal writing of a label other than -1
    that the topic model gave to 2 documents or more. *)
Theorem cluster_ids_distinct L articles r :
  cluster_articles L articles = inr r →
  NoDup (c_id <$> r_clusters r)
  ∧ ∀ c, c ∈ r_clusters r →
      ∃ f t, fitted_by L articles f
             ∧ c_id c = s "cluster-" ++ str_of_int t
             ∧ t ≠ -1
             ∧ (2 ≤ length (filter (λ t', t' = t) (topics f)))%nat.
Proof.
  intros Hr.
  destruct (cluster_articles_cases _ _ _ Hr)
    as [(_ & m & _ & ->)|(f & d & _ & Hf & _ & Hlen & Hg & ->)].
  { split; [constructor|]. intros c Hc. inversion Hc. }
  simpl. split.
  - rewrite sort_by_size_perm, build_clusters_spec. simpl.
    rewrite <- list_fmap_compose.
    assert (∀ l : topic_map,
              c_id ∘ (λ p : Z * list entry, make_cluster f p.1 p.2) <$> l
              = cluster_id_of <$> l.*1) as ->.
    { intros l. by rewrite <- list_fmap_compose. }
    apply (NoDup_fmap_2 _).
    eapply sublist_NoDup; [exact (g_nodup _ _ Hg)|].
    apply fmap_sublist, sublist_filter.
  - intros c Hc. apply elem_of_clusters in Hc as (p & Hp & Hb & ->).
    exists f, p.1. split; [done|]. split; [done|].
    destruct (group_size _ _ _ _ Hlen Hg Hp) as (Ht & _ & Hn).
    split; [done|]. rewrite <- Hn. unfold big, len in Hb. lia.
Qed.

Lemma cluster_ids_distinct_witness :
  NoDup (c_id <$> r_clusters (sample_result [0; 0; 1; 1; -1])).
Proof.
  apply (cluster_ids_distinct (fixed_library [0; 0; 1; 1; -1])
           sample_articles (sample_result [0; 0; 1; 1; -1])).
  vm_compute. reflexivity.
Defined.

(** ** Order and counts *)

Lemma labelled_snd_sublist articles f :
  (labelled articles f).*2 `sublist_of` article_id <$> valid articles.
Proof.
  unfold labelled. generalize (topics f) (article_id <$> valid articles).
  intros tps. induction tps as [|t tps IH]; intros ids; simpl.
  - apply sublist_nil_l.
  - destruct ids as [|i ids]; simpl; [done|]. apply sublist_skip, IH.
Qed.

Lemma ids_with_sublist t articles f :
  ids_with t (labelled articles f) `sublist_of` article_id <$> articles.
Proof.
  transitivity ((labelled articles f).*2).
  { unfold ids_with. apply fmap_sublist, sublist_filter. }
  transitivity (article_id <$> valid articles).
  - apply labelled_snd_sublist.
  - apply valid_ids_sublist.
Qed.

(** [unclusteredIds] and the [articleIds] of every cluster list their ids
    in the order of the articles in the input. *)
Theorem ids_in_input_order L articles r u :
  cluster_articles L articles = inr r →
  r_unclusteredIds r = Some u →
  u `sublist_of` article_id <$> articles
  ∧ ∀ c, c ∈ r_clusters r →
         c_articleIds c `sublist_of` article_id <$> articles.
Proof.
  intros Hr Hu.
  destruct (cluster_articles_cases _ _ _ Hr)
    as [(_ & m & _ & ->)|(f & d & _ & Hf & _ & Hlen & Hg & ->)];
    [discriminate Hu|].
  simpl in *. inversion Hu; subst u. split; [apply ids_with_sublist|].
  intros c (p & Hp & _ & ->)%elem_of_clusters. simpl.
  destruct (group_size _ _ _ _ Hlen Hg Hp) as (_ & Hids & _).
  unfold group_ids in Hids. rewrite Hids. apply ids_with_sublist.
Qed.

Lemma ids_in_input_order_witness :
  [s "4"; s "5"] `sublist_of` article_id <$> sample_articles
  ∧ Forall (λ c, c_articleIds c `sublist_of` article_id <$> sample_articles)
      (r_clusters (sample_result [1; 0; 1; -1; -1])).
Proof.
  destruct (ids_in_input_order (fixed_library [1; 0; 1; -1; -1])
              sample_articles (sample_result [1; 0; 1; -1; -1])
              [s "4"; s "5"]) as [H1 H2].
  - vm_compute. reflexivity.
  - vm_compute. reflexivity.
  - split; [exact H1|]. apply Forall_forall. exact H2.
Defined.

Lemma length_concat_big (d : topic_map) :
  (2 * length (filter big d)
   ≤ length (concat (group_ids <$> filter big d)))%nat.
Proof.
  induction d as [|p d IH]; [done|].
  rewrite filter_cons. case_decide as Hb; [|done].
  rewrite fmap_cons. simpl. rewrite length_app. unfold group_ids at 1.
  rewrite length_fmap. unfold big, len in Hb. lia.
Qed.

(** The numbers of a success result: at least 3 articles in total, as many
    [unclusteredIds] as labels -1, and twice the number of clusters is at
    most the number of ids the clusters list, which is at most
    [clusteredArticles], which is at most [totalArticles]. *)
Theorem result_counts L articles r u total clustered :
  cluster_articles L articles = inr r →
  r_unclusteredIds r = Some u →
  r_totalArticles r = Some total →
  r_clusteredArticles r = Some clustered →
  3 ≤ total
  ∧ 2 * len (r_clusters r) ≤ len (concat (c_articleIds <$> r_clusters r))
  ∧ len (concat (c_articleIds <$> r_clusters r)) ≤ clustered
  ∧ clustered ≤ total
  ∧ ∃ f, fitted_by L articles f
         ∧ len u = len (filter (λ t, t = -1) (topics f)).
Proof.
  intros Hr Hu Ht Hc.
  pose proof (output_ids_submseteq _ _ _ _ Hr Hu) as Hsub.
  apply submseteq_length in Hsub. rewrite length_app, length_fmap in Hsub.
  destruct (cluster_articles_cases _ _ _ Hr)
    as [(_ & m & _ & ->)|(f & d & H3 & Hf & _ & Hlen & Hg & ->)];
    [discriminate Hu|].
  simpl in *. inversion Hu; subst u. inversion Ht; subst total.
  inversion Hc; subst clustered. clear Hu Ht Hc.
  pose proof (Permutation_length (cluster_ids_spec f d)) as Hcl.
  pose proof (length_concat_big d) as Hbig.
  assert (length (sort_by_size (build_clusters f d []))
          = length (filter big d)) as Hn.
  { rewrite (Permutation_length (sort_by_size_perm _)), build_clusters_spec.
    simpl. by rewrite length_fmap. }
  unfold len in *. rewrite length_ids_with, labelled_fst in * by done.
  repeat split; try lia. exists f. split; [done|lia].
Qed.

Lemma result_counts_witness :
  2 * len (r_clusters (sample_result [0; 0; 1; 1; -1]))
  ≤ len (concat (c_articleIds <$> r_clusters (sample_result [0; 0; 1; 1; -1])))
  ∧ len (concat (c_articleIds <$> r_clusters (sample_result [0; 0; 1; 1; -1])))
    ≤ 4.
Proof.
  destruct (result_counts (fixed_library [0; 0; 1; 1; -1]) sample_articles
              (sample_result [0; 0; 1; 1; -1]) [s "5"] 5 4)
    as (_ & H1 & H2 & _).
  - vm_compute. reflexivity.
  - vm_compute. reflexivity.
  - vm_compute. reflexivity.
  - vm_compute. reflexivity.
  - split; [exact H1|exact H2].
Defined.

(** ** When the call returns and when it raises *)

Lemma append_at_ok t e d : t ∈ d.*1 → ∃ d', append_at t e d = inr d'.
Proof.
  induction d as [|[t' es] d IH]; simpl; intros Hin; [inversion Hin|].
  destruct (t' =? t) eqn:E; [by eexists|].
  apply Z.eqb_neq in E. apply elem_of_cons in Hin as [Hin|Hin]; [congruence|].
  destruct (IH Hin) as [d' ->]. by eexists.
Qed.

Lemma append_at_ensured t e d :
  ∃ d', append_at t e (if has_key t d then d else set_new t d) = inr d'.
Proof.
  destruct (has_key t d) eqn:E.
  - by apply append_at_ok, has_key_spec.
  - rewrite append_at_new; [by eexists|].
    intros Hin%has_key_spec. congruence.
Qed.

(** The positions of the labels other than -1 are within the
    probabilities. *)
Definition probabilities_cover (probs : option (list float)) (idx : nat)
    (tps : list Z) : Prop :=
  ∀ ps j t, probs = Some ps → tps !! j = Some t → t ≠ -1 →
            (idx + j < length ps)%nat.

Lemma probabilities_cover_cons probs idx t tps :
  probabilities_cover probs idx (t :: tps)
  ↔ (t ≠ -1 → ∀ ps, probs = Some ps → (idx < length ps)%nat)
    ∧ probabilities_cover probs (S idx) tps.
Proof.
  unfold probabilities_cover. split.
  - intros H. split.
    + intros Ht ps Hps. specialize (H ps 0%nat t Hps eq_refl Ht). lia.
    + intros ps j t' Hps Hj Ht'. specialize (H ps (S j) t' Hps Hj Ht'). lia.
  - intros [H1 H2] ps [|j] t' Hps Hj Ht'; simpl in Hj.
    + inversion Hj; subst t'. specialize (H1 Ht' ps Hps). lia.
    + specialize (H2 ps j t' Hps Hj Ht'). lia.
Qed.

Lemma group_articles_total articles ids probs tps :
  (length ids ≤ length articles)%nat →
  ∀ idx d,
    (idx + length tps ≤ length ids)%nat →
    probabilities_cover probs idx tps →
    ∃ d', group_articles articles ids probs idx tps d = inr d'.
Proof.
  intros Hla. induction tps as [|t tps IH]; intros idx d Hlen Hp; simpl.
  - by eexists.
  - simpl in Hlen. apply probabilities_cover_cons in Hp as [Hp1 Hp2].
    destruct (t =? -1) eqn:Et; [apply IH; [lia|done]|].
    apply Z.eqb_neq in Et.
    destruct (lookup_lt_is_Some_2 ids idx ltac:(lia)) as [i Hi].
    destruct (lookup_lt_is_Some_2 articles idx ltac:(lia)) as [a Ha].
    unfold index. rewrite Hi, Ha. simpl.
    assert (∃ p, match probs with
                 | Some ps => np_index ps idx
                 | None => ret 1%float
                 end = inr p) as [p ->].
    { destruct probs as [ps|]; [|by eexists].
      destruct (lookup_lt_is_Some_2 ps idx (Hp1 Et ps eq_refl)) as [p Hps].
      exists p. unfold np_index. by rewrite Hps. }
    simpl.
    destruct (append_at_ensured t (Entry i (get (a_title a) []) p) d)
      as [d' ->].
    simpl. apply IH; [lia|done].
Qed.

Lemma unclustered_total ids tps :
  ∀ idx, (idx + length tps ≤ length ids)%nat →
         ∃ u, unclustered ids idx tps = inr u.
Proof.
  induction tps as [|t tps IH]; intros idx Hlen; simpl; [by eexists|].
  simpl in Hlen. destruct (IH (S idx) ltac:(lia)) as [u Hu].
  destruct (t =? -1); [|by eexists].
  destruct (lookup_lt_is_Some_2 ids idx ltac:(lia)) as [i Hi].
  unfold index. rewrite Hi, Hu. simpl. by eexists.
Qed.

Lemma group_articles_probs articles ids probs tps :
  ∀ idx d d',
    group_articles articles ids probs idx tps d = inr d' →
    probabilities_cover probs idx tps.
Proof.
  induction tps as [|t tps IH]; intros idx d d' H; simpl in H.
  - intros ps j t Hps Hj. inversion Hj.
  - apply probabilities_cover_cons. destruct (t =? -1) eqn:Et.
    + apply Z.eqb_eq in Et. split; [congruence|by eapply IH].
    + inv_bind H as i Ei. inv_bind H as a Ea. inv_bind H as p Ep.
      inv_bind H as d0 Ed0. split; [|by eapply IH].
      intros _ ps ->. unfold np_index in Ep.
      destruct (ps !! idx) eqn:E; [|discriminate Ep].
      by apply lookup_lt_Some in E.
Qed.

Definition is_IndexError (e : exn) : Prop :=
  ∃ msg, e = PyExn (s "IndexError") msg.

Lemma group_articles_exn articles ids probs tps :
  ∀ idx d e,
    group_articles articles ids probs idx tps d = inl e → is_IndexError e.
Proof.
  induction tps as [|t tps IH]; intros idx d e H; simpl in H; [discriminate|].
  destruct (t =? -1); [by eapply IH|].
  unfold index in H.
  destruct (ids !! idx) as [i|]; [|inversion H; by eexists]. simpl in H.
  destruct (articles !! idx) as [a|]; [|inversion H; by eexists]. simpl in H.
  destruct (match probs with
            | Some ps => np_index ps idx
            | None => ret 1%float
            end) as [e'|p] eqn:Ep.
  { simpl in H. inversion H; subst e'. destruct probs as [ps|];
      [|discriminate Ep]. unfold np_index in Ep.
    destruct (ps !! idx); [discriminate Ep|]. inversion Ep. by eexists. }
  simpl in H.
  destruct (append_at_ensured t (Entry i (get (a_title a) []) p) d)
    as [d' Hd'].
  rewrite Hd' in H. simpl in H. by eapply IH.
Qed.

Lemma unclustered_exn ids tps :
  ∀ idx e, unclustered ids idx tps = inl e → is_IndexError e.
Proof.
  induction tps as [|t tps IH]; intros idx e H; simpl in H; [discriminate|].
  destruct (t =? -1); [|by eapply IH].
  unfold index in H.
  destruct (ids !! idx) as [i|]; [|inversion H; by eexists]. simpl in H.
  destruct (unclustered ids (S idx) tps) as [e'|u] eqn:E; [|discriminate H].
  simpl in H. inversion H; subst e'. by eapply IH.
Qed.

(** Lines 65-151, for documents [documents] with ids [article_ids]. *)
Definition fit_and_assemble (L : library) (articles : list article)
    (documents article_ids : list str) : M response :=
  let* embedding_model := SentenceTransformer L model_name in
  let* f := fit_transform L (topic_model embedding_model) documents in
  let* topic_to_articles :=
    group_articles articles article_ids (probabilities f) 0 (topics f) [] in
  let clusters := sort_by_size (build_clusters f topic_to_articles []) in
  let* unclustered_ids := unclustered article_ids 0 (topics f) in
  ret {| r_error := None;
         r_clusters := clusters;
         r_unclusteredIds := Some unclustered_ids;
         r_totalArticles := Some (len documents);
         r_clusteredArticles := Some (len documents - len unclustered_ids);
         r_message :=
           Some (s "Successfully created " ++ str_of_int (len clusters)
                 ++ s " clusters") |}.

Lemma cluster_articles_enough L articles :
  (3 ≤ length (valid articles))%nat →
  cluster_articles L articles
  = fit_and_assemble L articles (derived_text <$> valid articles)
      (article_id <$> valid articles).
Proof.
  intros H3. pose proof (valid_length articles) as Hle.
  unfold cluster_articles. rewrite prepare_spec. simpl.
  assert ((len articles <? 3) = false) as -> by (unfold len; lia).
  assert ((len (derived_text <$> valid articles) <? 3) = false) as ->
    by (unfold len; rewrite length_fmap; lia).
  by destruct articles; [simpl in *; lia|].
Qed.

Lemma cluster_articles_returns_iff L articles f :
  (3 ≤ length (valid articles))%nat →
  fitted_by L articles f →
  (∃ r, cluster_articles L articles = inr r ∧ success r)
  ↔ (length (topics f) ≤ length (valid articles))%nat
    ∧ probabilities_cover (probabilities f) 0 (topics f).
Proof.
  intros H3 (em & Hem & Hfit).
  rewrite cluster_articles_enough by done. unfold fit_and_assemble.
  rewrite Hem. simpl. rewrite Hfit. simpl. split.
  - intros (r & Hr & _). inv_bind Hr as d Ed. inv_bind Hr as u Eu.
    pose proof (loops_aligned _ _ _ _ 0%nat _ _ _ ltac:(lia) Ed Eu) as Hlen.
    rewrite length_fmap in Hlen. split; [exact Hlen|].
    exact (group_articles_probs _ _ _ _ _ _ _ Ed).
  - intros [Hlen Hp].
    destruct (group_articles_total articles (article_id <$> valid articles)
                (probabilities f) (topics f)) with (idx := 0%nat) (d := @nil (Z * list entry))
      as [d ->].
    + rewrite length_fmap. apply valid_length.
    + by rewrite length_fmap.
    + exact Hp.
    + simpl.
      destruct (unclustered_total (article_id <$> valid articles) (topics f)
                  0%nat) as [u ->]; [by rewrite length_fmap|].
      simpl. eexists. split; [reflexivity|]. repeat split; by eexists.
Qed.

(** With 3 documents or more and a fitted model, the call returns a
    success result exactly when the model gave no more labels than there
    are documents and, if it gave probabilities, one for every position
    whose label is not -1. *)
Theorem returns_iff_labels_fit L articles f :
  (3 ≤ length (filter (λ a, derived_text a ≠ []) articles))%nat →
  fitted_by L articles f →
  (∃ r, cluster_articles L articles = inr r ∧ success r)
  ↔ (length (topics f)
     ≤ length (filter (λ a, derived_text a ≠ []) articles))%nat
    ∧ ∀ ps j t, probabilities f = Some ps → topics f !! j = Some t →
                t ≠ -1 → (j < length ps)%nat.
Proof.
  intros H3 Hf. rewrite (cluster_articles_returns_iff _ _ _ H3 Hf).
  unfold probabilities_cover. simpl. done.
Qed.

Lemma returns_iff_labels_fit_witness :
  ∃ r, cluster_articles (fixed_library [0; 0; 1; 1; -1]) sample_articles
       = inr r ∧ success r.
Proof.
  apply (returns_iff_labels_fit (fixed_library [0; 0; 1; 1; -1])
           sample_articles (fixed_fitted [0; 0; 1; 1; -1] vectorizer)).
  - vm_compute. lia.
  - exists tt. split; reflexivity.
  - split; [vm_compute; lia|]. intros ps j t Hps. discriminate Hps.
Defined.

(** Once the model is fitted, the only exception the call raises is an
    [IndexError], and it raises one whenever the model gave more labels
    than there are documents. *)
Theorem fitted_raises_only_IndexError L articles f :
  (3 ≤ length (filter (λ a, derived_text a ≠ []) articles))%nat →
  fitted_by L articles f →
  (∀ e, cluster_articles L articles = inl e →
        ∃ msg, e = PyExn (s "IndexError") msg)
  ∧ ((length (filter (λ a, derived_text a ≠ []) articles)
      < length (topics f))%nat →
     ∃ msg, cluster_articles L articles = inl (PyExn (s "IndexError") msg)).
Proof.
  intros H3 Hf.
  assert (∀ e, cluster_articles L articles = inl e → is_IndexError e) as Hexn.
  { destruct Hf as (em & Hem & Hfit). fold (valid articles) in *.
    rewrite cluster_articles_enough by done. unfold fit_and_assemble.
    rewrite Hem. simpl. rewrite Hfit. simpl. intros e He.
    destruct (group_articles _ _ _ _ _ _) as [e'|d] eqn:Ed.
    { simpl in He. inversion He; subst e'. by eapply group_articles_exn. }
    simpl in He.
    destruct (unclustered _ _ _) as [e'|u] eqn:Eu; [|discriminate He].
    simpl in He. inversion He; subst e'. by eapply unclustered_exn. }
  split; [exact Hexn|]. intros Hlt.
  destruct (cluster_articles L articles) as [e|r] eqn:Hr.
  - destruct (Hexn e eq_refl) as [msg ->]. by exists msg.
  - assert (∃ r, cluster_articles L articles = inr r ∧ success r) as Hex.
    { exists r. split; [done|].
      destruct (cluster_articles_cases _ _ _ Hr)
        as [(Hlt3 & _)|(f' & d & _ & _ & _ & _ & _ & ->)];
        [unfold valid in Hlt3; lia|].
      repeat split; by eexists. }
    apply (cluster_articles_returns_iff _ _ _ H3 Hf) in Hex as [Hle _].
    unfold valid in Hle. lia.
Qed.

Lemma fitted_raises_only_IndexError_witness :
  ∃ msg, cluster_articles (fixed_library [0; 0; 1; 1; -1; -1]) sample_articles
         = inl (PyExn (s "IndexError") msg).
Proof.
  apply (fitted_raises_only_IndexError (fixed_library [0; 0; 1; 1; -1; -1])
           sample_articles (fixed_fitted [0; 0; 1; 1; -1; -1] vectorizer)).
  - vm_compute. lia.
  - exists tt. split; reflexivity.
  - vm_compute. lia.
Defined.

(** ** The library is consulted only when there is enough to cluster *)

(** On fewer than 3 articles the result is the record with the message of
    line 46; on 3 articles or more of which fewer than 3 have a text, the
    one with the message of line 61.  Neither depends on the library, which
    is not called. *)
Theorem too_few_messages L articles :
  ((length articles < 3)%nat →
   cluster_articles L articles
   = inr (too_few (s "Not enough articles to cluster (minimum 3)")))
  ∧ ((3 ≤ length articles)%nat →
     (length (filter (λ a, derived_text a ≠ []) articles) < 3)%nat →
     cluster_articles L articles
     = inr (too_few (s "Not enough valid documents to cluster"))).
Proof.
  unfold cluster_articles. split.
  - intros Hlt.
    assert (negb (nonempty articles) || (len articles <? 3) = true) as ->.
    { apply orb_true_iff. right. unfold len. lia. }
    done.
  - intros H3 Hlt.
    assert (negb (nonempty articles) || (len articles <? 3) = false) as ->.
    { apply orb_false_iff. split; [|unfold len; lia].
      destruct articles; [simpl in H3; lia|done]. }
    rewrite prepare_spec. simpl.
    assert ((len (derived_text <$> valid articles) <? 3) = true) as ->.
    { unfold len, valid. rewrite length_fmap. lia. }
    done.
Qed.

Lemma too_few_messages_witness :
  cluster_articles (failing_library (PyExn [] [])) (take 2 sample_articles)
  = inr (too_few (s "Not enough articles to cluster (minimum 3)"))
  ∧ cluster_articles (failing_library (PyExn [] []))
      (Article None None None :: take 2 sample_articles)
    = inr (too_few (s "Not enough valid documents to cluster")).
Proof.
  split.
  - apply (too_few_messages (failing_library (PyExn [] []))
             (take 2 sample_articles)).
    vm_compute. lia.
  - apply (too_few_messages (failing_library (PyExn [] []))
             (Article None None None :: take 2 sample_articles)).
    + vm_compute. lia.
    + vm_compute. lia.
Defined.

(** With 3 documents or more, an exception raised while the embedding
    model is loaded or the topic model is fitted is the exception the call
    raises, and the endpoint turns it into the error record made of its
    message. *)
Theorem library_failure_surfaces L articles e :
  (3 ≤ length (filter (λ a, derived_text a ≠ []) articles))%nat →
  SentenceTransformer L model_name = inl e
  ∨ (∃ em, SentenceTransformer L model_name = inr em
           ∧ fit_transform L (topic_model em)
               (derived_text <$> filter (λ a, derived_text a ≠ []) articles)
             = inl e) →
  cluster_articles L articles = inl e
  ∧ cluster_endpoint L (Request (Some articles))
    = inr {| r_error := Some (str_of_exn e); r_clusters := [];
             r_unclusteredIds := None; r_totalArticles := None;
             r_clusteredArticles := None;
             r_message := Some (s "Clustering failed: " ++ str_of_exn e) |}.
Proof.
  intros H3 He. fold (valid articles) in *.
  assert (cluster_articles L articles = inl e) as Hr.
  { rewrite cluster_articles_enough by done. unfold fit_and_assemble.
    destruct He as [->|(em & -> & Hfit)]; [done|]. simpl. by rewrite Hfit. }
  split; [exact Hr|]. unfold cluster_endpoint. simpl.
  destruct articles as [|a articles]; [simpl in H3; lia|].
  simpl. by rewrite Hr.
Qed.

Lemma library_failure_surfaces_witness :
  cluster_articles (failing_library (PyExn (s "OSError") (s "no model")))
    sample_articles
  = inl (PyExn (s "OSError") (s "no model")).
Proof.
  apply (library_failure_surfaces
           (failing_library (PyExn (s "OSError") (s "no model")))
           sample_articles (PyExn (s "OSError") (s "no model"))).
  - vm_compute. lia.
  - right. exists tt. split; reflexivity.
Defined.

(** ** The endpoint *)

(** On a request with at least one article the endpoint returns what
    [cluster_articles] returns, unchanged and without an [error]; the
    record it returns has an [error] exactly when the request has no
    article or [cluster_articles] raised. *)
Theorem endpoint_error_iff L data r :
  cluster_endpoint L data = inr r →
  (is_Some (r_error r)
   ↔ default [] (d_articles data) = []
     ∨ ∃ e, cluster_articles L (default [] (d_articles data)) = inl e)
  ∧ (default [] (d_articles data) ≠ [] →
     ∀ r', cluster_articles L (default [] (d_articles data)) = inr r' →
           r = r').
Proof.
  unfold cluster_endpoint.
  destruct (default [] (d_articles data)) as [|a articles] eqn:Ea.
  { simpl. intros Hr. inversion Hr; subst r. simpl.
    split; [|done]. split; [by left|by eexists]. }
  simpl. destruct (cluster_articles L (a :: articles)) as [e|r'] eqn:Hr'.
  - simpl. intros Hr. inversion Hr; subst r. simpl. split.
    + split; [intros _; right; by exists e|by eexists].
    + intros _ r'' H. discriminate H.
  - simpl. intros Hr. inversion Hr; subst r'. split.
    + assert (r_error r = None) as ->.
      { destruct (cluster_articles_cases _ _ _ Hr')
          as [(_ & m & _ & ->)|(f & d & _ & _ & _ & _ & _ & ->)]; done. }
      split; [by intros [? ?]|]. intros [H|[e H]]; discriminate H.
    + intros _ r'' H. by inversion H.
Qed.

Lemma endpoint_error_iff_witness :
  ¬ is_Some (r_error (sample_result [0; 0; 1; 1; -1])).
Proof.
  destruct (endpoint_error_iff (fixed_library [0; 0; 1; 1; -1])
              (Request (Some sample_articles))
              (sample_result [0; 0; 1; 1; -1])) as [Hiff _].
  - vm_compute. reflexivity.
  - intros Hs. apply Hiff in Hs as [H|[e H]].
    + discriminate H.
    + vm_compute in H. discriminate H.
Defined.

(** ** The clusters as a function of the labels *)

(** The distinct elements of a list, in the order of their first
    occurrences. *)
Fixpoint first_seen (l : list Z) : list Z :=
  match l with
  | [] => []
  | t :: l' => t :: filter (λ t', t' ≠ t) (first_seen l')
  end.

(** The cluster of label [t], from the labels paired with the ids. *)
Definition cluster_of (f : fitted) (lab : list (Z * str)) (t : Z) : cluster :=
  {| c_id := s "cluster-" ++ str_of_int t;
     c_articleIds := ids_with t lab;
     c_keywords := keywords_of (get_topic f t);
     c_topicName := topic_name_of (get_topic_info f) t;
     c_size := len (ids_with t lab) |}.

(** The clusters before the sort: one for each label other than -1 given
    to 2 documents or more, in the order in which the labels first occur. *)
Definition clusters_of (f : fitted) (ids : list str) : list cluster :=
  cluster_of f (zip (topics f) ids)
  <$> filter (λ t, 2 ≤ len (ids_with t (zip (topics f) ids)))
        (first_seen (filter (λ t, t ≠ -1) (topics f))).

Lemma elem_of_first_seen t l : t ∈ first_seen l ↔ t ∈ l.
Proof.
  induction l as [|a l IH]; simpl; [done|].
  rewrite !elem_of_cons, list_elem_of_filter, IH.
  destruct (decide (t = a)) as [->|Hne]; split.
  - by left.
  - by left.
  - intros [?|[_ ?]]; [done|by right].
  - intros [?|?]; [done|]. right. by split.
Qed.

Lemma first_seen_snoc l t :
  first_seen (l ++ [t])
  = if decide (t ∈ l) then first_seen l else first_seen l ++ [t].
Proof.
  induction l as [|a l IH].
  - destruct (decide (t ∈ [])) as [H|_]; [inversion H|done].
  - cbn [app first_seen]. rewrite IH.
    destruct (decide (t ∈ l)) as [Hin|Hnin].
    + destruct (decide (t ∈ a :: l)) as [_|Hn]; [done|].
      destruct Hn. by right.
    + rewrite filter_app, filter_cons.
      destruct (decide (t = a)) as [->|Hne].
      * destruct (decide (a ∈ a :: l)) as [_|Hn]; [|destruct Hn; left].
        destruct (decide (a ≠ a)) as [Hn|_]; [done|].
        by rewrite app_nil_r.
      * destruct (decide (t ∈ a :: l)) as [[?|?]%elem_of_cons|_]; [done|done|].
        destruct (decide (t ≠ a)) as [_|Hn]; [done|]. by destruct Hn.
Qed.

Lemma group_articles_keys articles ids probs tps :
  ∀ idx d d' ls,
    d.*1 = first_seen (filter (λ t, t ≠ -1) ls) →
    group_articles articles ids probs idx tps d = inr d' →
    d'.*1 = first_seen (filter (λ t, t ≠ -1) (ls ++ tps)).
Proof.
  induction tps as [|t tps IH]; intros idx d d' ls Hk H; simpl in H.
  - inversion H; subst. by rewrite app_nil_r.
  - rewrite cons_middle, app_assoc. destruct (t =? -1) eqn:Et.
    + apply Z.eqb_eq in Et. subst t. eapply IH; [|exact H].
      rewrite filter_app, filter_cons, decide_False by (intros ?; done).
      by rewrite app_nil_r.
    + apply Z.eqb_neq in Et.
      inv_bind H as i Ei. inv_bind H as a Ea. inv_bind H as p Ep.
      inv_bind H as d0 Ed0. eapply IH; [|exact H].
      rewrite (append_at_keys _ _ _ _ Ed0).
      rewrite filter_app, filter_cons, decide_True by done.
      rewrite first_seen_snoc, <- Hk.
      destruct (has_key t d) eqn:E.
      * apply has_key_spec in E. rewrite decide_True; [done|].
        by rewrite <- elem_of_first_seen, <- Hk.
      * rewrite decide_False.
        -- unfold set_new. by rewrite fmap_app.
        -- rewrite <- elem_of_first_seen, <- Hk. intros Hin%has_key_spec.
           congruence.
Qed.

Lemma build_clusters_of articles f (d : topic_map) :
  (length (topics f) ≤ length (valid articles))%nat →
  grouping (labelled articles f) d →
  (λ p : Z * list entry, make_cluster f p.1 p.2) <$> filter big d
  = cluster_of f (labelled articles f)
    <$> filter (λ t, 2 ≤ len (ids_with t (labelled articles f))) d.*1.
Proof.
  intros Hlen Hg.
  assert (Forall (λ p, p ∈ d) d) as Hall by (by apply Forall_forall).
  revert Hall. generalize d at 2 3 4. intros d0.
  induction d0 as [|p d0 IH]; intros Hall; [done|].
  apply Forall_cons in Hall as [Hp Hall].
  destruct (group_size _ _ _ _ Hlen Hg Hp) as (_ & Hids & _).
  assert (len p.2 = len (ids_with p.1 (labelled articles f))) as Hl.
  { rewrite <- Hids. unfold len, group_ids. by rewrite length_fmap. }
  rewrite fmap_cons, !filter_cons.
  destruct (decide (big p)) as [Hb|Hb],
           (decide (2 ≤ len (ids_with p.1 (labelled articles f)))) as [Hb'|Hb'];
    unfold big in Hb; rewrite Hl in Hb; try done; [|by apply IH].
  rewrite !fmap_cons, IH by done. f_equal.
  unfold make_cluster, cluster_of. unfold group_ids in Hids.
  by rewrite Hids, Hl.
Qed.

Lemma fitted_by_unique L articles f f' :
  fitted_by L articles f → fitted_by L articles f' → f = f'.
Proof. intros (em & Hem & Hf) (em' & Hem' & Hf'). congruence. Qed.

Lemma success_clusters_of L articles r u :
  cluster_articles L articles = inr r →
  r_unclusteredIds r = Some u →
  ∃ f,
    fitted_by L articles f
    ∧ (length (topics f) ≤ length (valid articles))%nat
    ∧ r_clusters r
      = sort_by_size (clusters_of f (article_id <$> valid articles))
    ∧ u = ids_with (-1) (labelled articles f)
    ∧ r_totalArticles r = Some (len (valid articles))
    ∧ r_clusteredArticles r = Some (len (valid articles) - len u).
Proof.
  intros Hr Hu.
  destruct (cluster_articles_cases _ _ _ Hr)
    as [(_ & m & _ & ->)|(f & d & _ & Hf & Hd & Hlen & Hg & ->)];
    [discriminate Hu|].
  simpl in *. inversion Hu; subst u. exists f. split; [done|].
  split; [done|]. split; [|done]. f_equal. rewrite build_clusters_spec. simpl.
  rewrite (build_clusters_of articles) by done.
  apply (group_articles_keys _ _ _ _ 0%nat [] d []) in Hd; [|done].
  simpl in Hd. by rewrite Hd.
Qed.

(** The loops of lines 104-143 compute a group-by: the clusters of a
    success result are the sorted [clusters_of] the labels and the ids of
    the documents, and [unclusteredIds] holds the ids at the positions of
    the label -1, in order. *)
Theorem clusters_are_clusters_of L articles r u :
  cluster_articles L articles = inr r →
  r_unclusteredIds r = Some u →
  ∃ f,
    fitted_by L articles f
    ∧ r_clusters r
      = sort_by_size
          (clusters_of f
             (article_id <$> filter (λ a, derived_text a ≠ []) articles))
    ∧ u = (filter (λ p, p.1 = -1)
             (zip (topics f)
                (article_id <$> filter (λ a, derived_text a ≠ []) articles))).*2.
Proof.
  intros Hr Hu.
  destruct (success_clusters_of _ _ _ _ Hr Hu) as (f & Hf & _ & Hc & -> & _).
  by exists f.
Qed.

Lemma clusters_are_clusters_of_witness :
  r_clusters (sample_result [2; 0; 0; 1; 1])
  = sort_by_size
      (clusters_of (fixed_fitted [2; 0; 0; 1; 1] vectorizer)
         (article_id <$> sample_articles)).
Proof.
  destruct (clusters_are_clusters_of (fixed_library [2; 0; 0; 1; 1])
              sample_articles (sample_result [2; 0; 0; 1; 1]) [])
    as (f & (em & _ & Hfit) & Hc & _).
  - vm_compute. reflexivity.
  - vm_compute. reflexivity.
  - simpl in Hfit. inversion Hfit; subst f. exact Hc.
Defined.

(** ** Two extreme labellings *)

Lemma ids_with_replicate t (ids : list str) :
  ids_with t (zip (replicate (length ids) t) ids) = ids.
Proof.
  unfold ids_with. induction ids as [|i ids IH]; [done|].
  simpl. rewrite filter_cons, decide_True by done. simpl. by f_equal.
Qed.

Lemma ids_with_replicate_other t t' (ids : list str) :
  t ≠ t' → ids_with t' (zip (replicate (length ids) t) ids) = [].
Proof.
  intros Hne. unfold ids_with. induction ids as [|i ids IH]; [done|].
  simpl. by rewrite filter_cons, decide_False.
Qed.

Lemma filter_replicate_all (P : Z → Prop) `{!∀ t, Decision (P t)} n t :
  P t → filter P (replicate n t) = replicate n t.
Proof.
  intros Ht. induction n as [|n IH]; [done|].
  simpl. by rewrite filter_cons, decide_True, IH.
Qed.

Lemma filter_replicate_none (P : Z → Prop) `{!∀ t, Decision (P t)} n t :
  ¬ P t → filter P (replicate n t) = [].
Proof.
  intros Ht. induction n as [|n IH]; [done|].
  simpl. by rewrite filter_cons, decide_False.
Qed.

Lemma first_seen_replicate n t : first_seen (replicate (S n) t) = [t].
Proof.
  induction n as [|n IH]; [done|].
  change (replicate (S (S n)) t) with (t :: replicate (S n) t).
  cbn [first_seen]. rewrite IH, filter_cons, decide_False; [done|].
  intros H. done.
Qed.

(** When the topic model gives every document the label -1, the success
    result has no cluster, [unclusteredIds] lists the ids of all the
    documents in order, and [clusteredArticles] is 0. *)
Theorem all_outliers L articles f r u :
  fitted_by L articles f →
  topics f
  = replicate (length (filter (λ a, derived_text a ≠ []) articles)) (-1) →
  cluster_articles L articles = inr r →
  r_unclusteredIds r = Some u →
  r_clusters r = []
  ∧ u = article_id <$> filter (λ a, derived_text a ≠ []) articles
  ∧ r_clusteredArticles r = Some 0.
Proof.
  intros Hf Ht Hr Hu. fold (valid articles) in *.
  destruct (success_clusters_of _ _ _ _ Hr Hu)
    as (f' & Hf' & _ & Hc & Hueq & _ & Hca).
  rewrite (fitted_by_unique _ _ _ _ Hf' Hf) in *. clear Hf'.
  assert (u = article_id <$> valid articles) as Hu'.
  { rewrite Hueq. unfold labelled. rewrite Ht.
    rewrite <- (length_fmap article_id). apply ids_with_replicate. }
  split; [|split; [exact Hu'|]].
  - rewrite Hc. unfold clusters_of. rewrite Ht.
    by rewrite filter_replicate_none by (intros H; done).
  - rewrite Hca, Hu'. unfold len. rewrite length_fmap. f_equal. lia.
Qed.

Lemma all_outliers_witness :
  r_clusters (sample_result [-1; -1; -1; -1; -1]) = []
  ∧ r_clusteredArticles (sample_result [-1; -1; -1; -1; -1]) = Some 0.
Proof.
  destruct (all_outliers (fixed_library [-1; -1; -1; -1; -1]) sample_articles
              (fixed_fitted [-1; -1; -1; -1; -1] vectorizer)
              (sample_result [-1; -1; -1; -1; -1])
              (article_id <$> sample_articles)) as (H1 & _ & H3).
  - exists tt. split; reflexivity.
  - vm_compute. reflexivity.
  - vm_compute. reflexivity.
  - vm_compute. reflexivity.
  - split; [exact H1|exact H3].
Defined.

(** When the topic model gives every document one label other than -1, the
    success result has one cluster, which lists the ids of all the
    documents in order, and [unclusteredIds] is empty. *)
Theorem single_topic L articles f t r u :
  fitted_by L articles f →
  t ≠ -1 →
  topics f
  = replicate (length (filter (λ a, derived_text a ≠ []) articles)) t →
  cluster_articles L articles = inr r →
  r_unclusteredIds r = Some u →
  u = []
  ∧ ∃ c, r_clusters r = [c]
         ∧ c_id c = s "cluster-" ++ str_of_int t
         ∧ c_articleIds c
           = article_id <$> filter (λ a, derived_text a ≠ []) articles
         ∧ r_totalArticles r = Some (c_size c)
         ∧ r_clusteredArticles r = Some (c_size c).
Proof.
  intros Hf Hne Ht Hr Hu. fold (valid articles) in *.
  destruct (cluster_articles_cases _ _ _ Hr)
    as [(_ & m & _ & ->)|(f0 & d & H3 & _ & _ & _ & _ & _)];
    [discriminate Hu|].
  destruct (success_clusters_of _ _ _ _ Hr Hu)
    as (f' & Hf' & _ & Hc & Hueq & Htot & Hca).
  rewrite (fitted_by_unique _ _ _ _ Hf' Hf) in *. clear Hf'.
  assert (zip (topics f) (article_id <$> valid articles)
          = zip (replicate (length (article_id <$> valid articles)) t)
              (article_id <$> valid articles)) as Hz
    by (by rewrite Ht, length_fmap).
  assert (u = []) as ->.
  { rewrite Hueq. unfold labelled. rewrite Hz.
    by apply ids_with_replicate_other. }
  split; [done|].
  exists (cluster_of f (zip (topics f) (article_id <$> valid articles)) t).
  assert (len (ids_with t (zip (topics f) (article_id <$> valid articles)))
          = len (valid articles)) as Hl.
  { rewrite Hz, ids_with_replicate. unfold len. by rewrite length_fmap. }
  split; [|split; [done|split]].
  - assert (first_seen (filter (λ t', t' ≠ -1) (topics f)) = [t]) as Hfs.
    { rewrite Ht, filter_replicate_all by done.
      destruct (length (valid articles)) as [|n]; [lia|].
      apply first_seen_replicate. }
    rewrite Hc. unfold clusters_of. rewrite Hfs, filter_cons, decide_True.
    + done.
    + rewrite Hl. unfold len. lia.
  - simpl. by rewrite Hz, ids_with_replicate.
  - simpl. rewrite Hl, Htot, Hca. split; [done|]. f_equal.
    unfold len. simpl. lia.
Qed.

Lemma single_topic_witness :
  ∃ c, r_clusters (sample_result [4; 4; 4; 4; 4]) = [c]
       ∧ c_articleIds c = article_id <$> sample_articles.
Proof.
  destruct (single_topic (fixed_library [4; 4; 4; 4; 4]) sample_articles
              (fixed_fitted [4; 4; 4; 4; 4] vectorizer) 4
              (sample_result [4; 4; 4; 4; 4]) [])
    as (_ & c & H1 & _ & H2 & _).
  - exists tt. split; reflexivity.
  - discriminate.
  - vm_compute. reflexivity.
  - vm_compute. reflexivity.
  - vm_compute. reflexivity.
  - exists c. split; [exact H1|exact H2].
Defined.

(** ** Topic names *)

Lemma topic_name_of_spec info t :
  (∃ row, row ∈ info ∧ Topic row = t ∧ topic_name_of info t = Name row)
  ∨ ((∀ row, row ∈ info → Topic row ≠ t)
     ∧ topic_name_of info t = s "Topic " ++ str_of_int t).
Proof.
  unfold topic_name_of.
  destruct (List.filter (topic_eqb t) info) as [|row rows] eqn:E.
  - right. split; [|done]. intros row Hrow%list_elem_of_In Ht.
    assert (In row (List.filter (topic_eqb t) info)) as Hin.
    { apply filter_In. split; [done|]. unfold topic_eqb. by apply Z.eqb_eq. }
    rewrite E in Hin. inversion Hin.
  - left. exists row.
    assert (In row (List.filter (topic_eqb t) info)) as Hin
      by (rewrite E; by left).
    apply filter_In in Hin as [Hin Ht]. unfold topic_eqb in Ht.
    apply Z.eqb_eq in Ht. split; [by apply list_elem_of_In|done].
Qed.

(** The [topicName] of a cluster is the [Name] of a row of the topic info
    whose [Topic] is the label of the cluster, and ["Topic "] followed by
    the label when the topic info has no row for it. *)
Theorem topic_name_of_cluster L articles r c :
  cluster_articles L articles = inr r →
  c ∈ r_clusters r →
  ∃ f t,
    fitted_by L articles f
    ∧ c_id c = s "cluster-" ++ str_of_int t
    ∧ ((∃ row, row ∈ get_topic_info f ∧ Topic row = t
               ∧ c_topicName c = Name row)
       ∨ ((∀ row, row ∈ get_topic_info f → Topic row ≠ t)
          ∧ c_topicName c = s "Topic " ++ str_of_int t)).
Proof.
  intros Hr Hc.
  destruct (cluster_articles_cases _ _ _ Hr)
    as [(_ & m & _ & ->)|(f & d & _ & Hf & _ & _ & _ & ->)];
    [inversion Hc|].
  simpl in Hc. apply elem_of_clusters in Hc as (p & _ & _ & ->).
  exists f, p.1. split; [done|]. split; [done|]. apply topic_name_of_spec.
Qed.

Lemma topic_name_of_cluster_witness :
  c_topicName <$> r_clusters (sample_result [0; 0; 1; 1; -1])
  = [s "0_first"; s "Topic 1"]
  ∧ Forall (λ c, ∃ f t, fitted_by (fixed_library [0; 0; 1; 1; -1])
                          sample_articles f
                        ∧ c_id c = s "cluster-" ++ str_of_int t)
      (r_clusters (sample_result [0; 0; 1; 1; -1])).
Proof.
  split; [vm_compute; reflexivity|].
  apply Forall_forall. intros c Hc.
  destruct (topic_name_of_cluster (fixed_library [0; 0; 1; 1; -1])
              sample_articles (sample_result [0; 0; 1; 1; -1]) c)
    as (f & t & Hf & Hid & _).
  - vm_compute. reflexivity.
  - exact Hc.
  - by exists f, t.
Defined.

(** ** What the result depends on *)

(** The articles [sample_articles] with title and excerpt joined in the
    title. *)
Definition sample_articles_joined : list article :=
  (λ a, Article (a_id a) (Some (derived_text a)) None) <$> sample_articles.

(** Two lists of articles that are both shorter than 3 or both not, and
    whose articles with a text have the same derived texts and the same
    ids, give the same result or the same exception: titles, excerpts and
    text-less articles matter through these only. *)
Theorem result_depends_on_texts_and_ids L arts1 arts2 :
  ((length arts1 < 3)%nat ↔ (length arts2 < 3)%nat) →
  derived_text <$> filter (λ a, derived_text a ≠ []) arts1
  = derived_text <$> filter (λ a, derived_text a ≠ []) arts2 →
  article_id <$> filter (λ a, derived_text a ≠ []) arts1
  = article_id <$> filter (λ a, derived_text a ≠ []) arts2 →
  cluster_articles L arts1 = cluster_articles L arts2.
Proof.
  intros Hlen Ht Hi. apply cluster_articles_ext; [|done|done].
  assert (∀ l : list article,
            negb (nonempty l) || (len l <? 3) = (len l <? 3)) as Hb.
  { intros [|? ?]; [done|]. done. }
  rewrite !Hb. unfold len.
  destruct (Z.ltb_spec (Z.of_nat (length arts1)) 3),
           (Z.ltb_spec (Z.of_nat (length arts2)) 3); try done; lia.
Qed.

Lemma result_depends_on_texts_and_ids_witness :
  cluster_articles (fixed_library [0; 0; 1; 1; -1]) sample_articles
  = cluster_articles (fixed_library [0; 0; 1; 1; -1]) sample_articles_joined.
Proof.
  apply (result_depends_on_texts_and_ids (fixed_library [0; 0; 1; 1; -1])
           sample_articles sample_articles_joined).
  - vm_compute. lia.
  - vm_compute. reflexivity.
  - vm_compute. reflexivity.
Defined.
